(** * list-posts: the post manifest builder of mk12/blog

    A shallow embedding of [src/list-posts.c] and the properties of its
    specification.  The program reads the directory [posts], parses the
    [key: value] header of every entry whose name does not start with a
    dot, renders one JSON object per entry into a static character
    buffer, sorts the records with the C library's [qsort] and prints
    the array.

    Conventions of the embedding.
    - A C string, a line and a file are sequences of bytes ([list ascii]);
      the C library functions used by the program ([strlen], [strcmp],
      [strncmp], [strchr], the [%s] and [%.*s] conversions, [getline],
      [puts]) are written out with their treatment of the terminator.
    - [int64_t] and [uint64_t] values are integers ([Z]) with the
      wrap-around written out.
    - The static objects [posts] and [buffer], the local [post] and the
      two output streams are the fields of [state]; a statement of [main]
      is a function on [state], and [flow] records whether control goes
      on or [main] has returned.
    - What C leaves indeterminate is supplied by the [World]: the initial
      value of the uninitialised [post.date], and the bytes found one
      position past a line's terminator.
    - A store outside one of the two static arrays is recorded in the
      field [faults] of the state.  From the first such store on, the
      behaviour of the C program is undefined: the statements about what
      a run prints in general are about runs in which none is recorded.
    - [qsort] belongs to the C library, not to the program: [main] takes
      it as an argument, and the statements say what they assume of it.
      [insertion_qsort] is the instance on which the examples run;
      [rev_qsort] is a second one, which orders ties the other way. *)

From Stdlib Require Import ZArith Lia Ascii String DecimalString Permutation.

From stdpp Require Import base strings list.

Local Open Scope Z_scope.

(** ** Bytes and the C library *)

Definition NUL : ascii := "000"%char.

Definition TAB : ascii := "009"%char.

Definition LF : ascii := "010"%char.

Definition DQUOTE : ascii := "034"%char.

(** A string literal of the source, without its terminator. *)
Definition lit (s : string) : list ascii := list_ascii_of_string s.

(** The value of a byte read as [unsigned char] / [uint8_t]. *)
Definition uchar (c : ascii) : Z := Z.of_N (N_of_ascii c).

(** The C string stored in a byte sequence: the bytes before the first
    NUL.  The end of the sequence stands for the terminator. *)
Fixpoint c_str (s : list ascii) : list ascii :=
  match s with
  | [] => []
  | c :: s' => if Ascii.eqb c NUL then [] else c :: c_str s'
  end.

Definition strlen (s : list ascii) : nat := length (c_str s).

Fixpoint strcmp (s1 s2 : list ascii) : Z :=
  match s1, s2 with
  | [], [] => 0
  | [], c2 :: _ => uchar NUL - uchar c2
  | c1 :: _, [] => uchar c1 - uchar NUL
  | c1 :: r1, c2 :: r2 =>
      if Ascii.eqb c1 c2
      then (if Ascii.eqb c1 NUL then 0 else strcmp r1 r2)
      else uchar c1 - uchar c2
  end.

Fixpoint strncmp (s1 s2 : list ascii) (n : nat) : Z :=
  match n with
  | O => 0
  | S n' =>
      let c1 := hd NUL s1 in
      let c2 := hd NUL s2 in
      if Ascii.eqb c1 c2
      then (if Ascii.eqb c1 NUL then 0 else strncmp (tl s1) (tl s2) n')
      else uchar c1 - uchar c2
  end.

(** [strchr s c]: the offset of the first [c] in the C string [s]
    ([None] for the null pointer). *)
Fixpoint strchr (s : list ascii) (c : ascii) : option nat :=
  match s with
  | [] => if Ascii.eqb c NUL then Some O else None
  | a :: s' =>
      if Ascii.eqb a c then Some O
      else if Ascii.eqb a NUL then None
      else S <$> strchr s' c
  end.

(** The conversion [%.*s]: a negative precision is taken as if it were
    omitted. *)
Definition printf_prec_s (prec : Z) (s : list ascii) : list ascii :=
  if prec <? 0 then c_str s else take (Z.to_nat prec) (c_str s).

(** The conversion [%d] of a non-negative [int]. *)
Definition printf_d (n : nat) : list ascii :=
  lit (NilZero.string_of_uint (Nat.to_uint n)).

(** The stream of a file opened for reading is the list of the lines
    that successive calls of [getline] return: each line keeps its
    newline, the last one may lack it, and [getline] returns -1 when the
    list is exhausted. *)
Fixpoint getlines (f : list ascii) : list (list ascii) :=
  match f with
  | [] => []
  | c :: f' =>
      if Ascii.eqb c LF then [c] :: getlines f'
      else match getlines f' with
           | [] => [[c]]
           | l :: ls => (c :: l) :: ls
           end
  end.

(** ** Data of the program *)

(** A [char *]: null, or a position in the static [buffer]. *)
Inductive ptr := NULL | Buffer (off : nat).

Record Post := { date : Z; json : ptr }.

Record DateString := {
  y : ascii * ascii * ascii * ascii;
  hyphen1 : ascii;
  m : ascii * ascii;
  hyphen2 : ascii;
  d : ascii * ascii
}.

Definition MAX_POSTS : nat := 100.

Definition METADATA_MAX_SIZE : nat := 256.

Definition to_uint64 (z : Z) : Z := z mod 2 ^ 64.

Definition to_int64 (z : Z) : Z := (z + 2 ^ 63) mod 2 ^ 64 - 2 ^ 63.

Definition cmp_posts (lhs rhs : Post) : Z :=
  let lhs_date := date lhs in
  let rhs_date := date rhs in
  let d := to_int64 (rhs_date - rhs_date) in
  (if 0 <? d then 1 else 0) - (if d <? 0 then 1 else 0).

(** ** The environment *)

Inductive fopen_result :=
  | fopen_fails (strerror : list ascii)
  | fopen_ok (contents : list ascii).

(** A directory entry as [readdir] returns it, with what [fopen] on its
    name gives. *)
Record dirent := { d_name : list ascii; d_fopen : fopen_result }.

Record World := {
  (** [opendir("posts")]: the error text of [perror], or the entries in
      the order [readdir] returns them *)
  opendir_posts : list ascii + list dirent;
  (** the indeterminate value found in [post.date] when the record
      number [n] is declared *)
  indeterminate_date : nat -> Z;
  (** the C string found one byte past the terminator of the last line
      of the named file, in the block [getline] allocated: bytes that
      the earlier lines of the file, its first line included, or the
      allocator left there.  They are fixed within one run; a statement
      that compares the runs over two different files takes a world for
      each *)
  past_terminator : list ascii -> list ascii
}.

(** ** The state of [main] *)

(** Stores outside an array: the instrumentation of the model.  The
    model records the store and goes on, so that a statement can say
    where the store occurs; what the C program does after it is
    undefined. *)
Inductive fault :=
  | posts_out_of_bounds (index : nat)
  | buffer_out_of_bounds (offset : nat).

Record state := {
  buf : list ascii;      (* the bytes [buffer[0 .. buf - buffer)] *)
  posts : list Post;     (* the array [posts], [MAX_POSTS] elements *)
  nposts : nat;
  post : Post;           (* the record under construction *)
  stdout : list ascii;
  stderr : list ascii;
  faults : list fault
}.

Inductive flow :=
  | Running (st : state)
  | Returned (status : Z) (st : state).

Definition state_of (f : flow) : state :=
  match f with
  | Running st => st
  | Returned _ st => st
  end.

Definition initial : state :=
  {| buf := [];
     posts := replicate MAX_POSTS {| date := 0; json := NULL |};
     nposts := O;
     post := {| date := 0; json := NULL |};
     stdout := [];
     stderr := [];
     faults := [] |}.

Definition buffer_size : nat := (MAX_POSTS * METADATA_MAX_SIZE)%nat.

(** [buf += sprintf(buf, ...)] where the conversions produce [text]: the
    text and a terminator are stored from [buf] on, and [buf] moves to
    the terminator.  The program does not compare [buf] with the end of
    [buffer]: a terminator at or past the end is recorded as a fault. *)
Definition sprintf_buf (text : list ascii) (st : state) : state :=
  let last := (length (buf st) + length text)%nat in
  {| buf := buf st ++ text;
     posts := posts st; nposts := nposts st; post := post st;
     stdout := stdout st; stderr := stderr st;
     faults := faults st ++
               (if (buffer_size <=? last)%nat then [buffer_out_of_bounds last] else []) |}.

(** [*buf++ = c] *)
Definition store_buf (c : ascii) (st : state) : state :=
  let at_ := length (buf st) in
  {| buf := buf st ++ [c];
     posts := posts st; nposts := nposts st; post := post st;
     stdout := stdout st; stderr := stderr st;
     faults := faults st ++
               (if (buffer_size <=? at_)%nat then [buffer_out_of_bounds at_] else []) |}.

Definition set_post (p : Post) (st : state) : state :=
  {| buf := buf st; posts := posts st; nposts := nposts st; post := p;
     stdout := stdout st; stderr := stderr st; faults := faults st |}.

(** [posts[nposts++] = post]: a store at an index past the array changes
    no element of it and is recorded as a fault. *)
Definition store_post (st : state) : state :=
  let i := nposts st in
  {| buf := buf st;
     posts := <[i := post st]> (posts st);
     nposts := S i;
     post := post st;
     stdout := stdout st; stderr := stderr st;
     faults := faults st ++
               (if (MAX_POSTS <=? i)%nat then [posts_out_of_bounds i] else []) |}.

Definition set_posts (ps : list Post) (st : state) : state :=
  {| buf := buf st; posts := ps; nposts := nposts st; post := post st;
     stdout := stdout st; stderr := stderr st; faults := faults st |}.

(** Output on the standard streams. *)
Definition print_out (text : list ascii) (st : state) : state :=
  {| buf := buf st; posts := posts st; nposts := nposts st; post := post st;
     stdout := stdout st ++ text; stderr := stderr st; faults := faults st |}.

Definition print_err (text : list ascii) (st : state) : state :=
  {| buf := buf st; posts := posts st; nposts := nposts st; post := post st;
     stdout := stdout st; stderr := stderr st ++ text; faults := faults st |}.

(** [perror(s)] when the error text is [msg]. *)
Definition perror (s msg : list ascii) (st : state) : state :=
  print_err (c_str s ++ lit ": " ++ msg ++ [LF]) st.

(** [puts(p)]: the C string at [p] and a newline.  The static buffer is
    zero past the bytes written. *)
Definition puts (p : ptr) (st : state) : state :=
  match p with
  | Buffer off => print_out (c_str (drop off (buf st)) ++ [LF]) st
  | NULL => st
  end.

(** ** The program *)

Definition posts_dir : list ascii := lit "posts".

Definition metadata_separator : list ascii := lit "---" ++ [LF].

Definition date_line_len : Z :=
  Z.of_nat (strlen (lit "date: YYYY-MM-DD" ++ [LF])).

(** [*(struct DateString * )p]: the ten bytes at [p]. *)
Definition read_DateString (p : list ascii) : DateString :=
  let b i := nth i p NUL in
  {| y := (b 0%nat, b 1%nat, b 2%nat, b 3%nat);
     hyphen1 := b 4%nat;
     m := (b 5%nat, b 6%nat);
     hyphen2 := b 7%nat;
     d := (b 8%nat, b 9%nat) |}.

Definition shl64 (c : ascii) (n : Z) : Z := to_uint64 (Z.shiftl (uchar c) n).

(** Lines 81-85: the sort key of a date. *)
Definition date_of (s : DateString) : Z :=
  let '(y0, y1, y2, y3) := y s in
  let '(m0, m1) := m s in
  let '(d0, d1) := d s in
  let date :=
    Z.lor (Z.lor (Z.lor (Z.lor (Z.lor (Z.lor (Z.lor
      (shl64 y0 56) (shl64 y1 48)) (shl64 y2 40)) (shl64 y3 32))
      (shl64 m0 24)) (shl64 m1 16)) (shl64 d0 8)) (uchar d1) in
  to_int64 date.

Definition quoted (s : list ascii) : list ascii := DQUOTE :: s ++ [DQUOTE].

(** The text of the format [{"path": "%s"] for the argument [name]. *)
Definition format_path (name : list ascii) : list ascii :=
  lit "{" ++ quoted (lit "path") ++ lit ": " ++ quoted (c_str name).

(** The text of the format [, "%.*s": "%.*s"] for the arguments
    [key_len, line, prec, value]. *)
Definition format_field (key_len : Z) (line : list ascii) (prec : Z)
    (value : list ascii) : list ascii :=
  lit ", " ++ quoted (printf_prec_s key_len line) ++ lit ": "
  ++ quoted (printf_prec_s prec value).

(** The text of the two diagnostics [%s: ... line:\n\t%s]. *)
Definition format_diagnostic (name : list ascii) (what : string)
    (line : list ascii) : list ascii :=
  c_str name ++ lit ": " ++ lit what ++ lit " line:" ++ [LF; TAB] ++ c_str line.

(** The text of the format [too many posts (%d)\n]. *)
Definition format_too_many (n : nat) : list ascii :=
  lit "too many posts (" ++ printf_d n ++ lit ")" ++ [LF].

#[global] Arguments lit : simpl never.

#[global] Arguments format_path : simpl never.

#[global] Arguments format_field : simpl never.

#[global] Arguments format_diagnostic : simpl never.

#[global] Arguments format_too_many : simpl never.

(** The C string at [colon + 2], where [colon = line + key_len]: inside
    the line and its terminator, or just past them. *)
Definition at_colon_2 (w : World) (name line : list ascii) (key_len : nat)
  : list ascii :=
  if (key_len + 2 <=? length line)%nat then drop (key_len + 2) line
  else past_terminator w name.

(** Lines 67-86: the body of the inner loop, for a line that [getline]
    returned with length [len = length line]. *)
Definition header_line (w : World) (name line : list ascii) (st : state) : flow :=
  let len := Z.of_nat (length line) in
  match strchr line ":" with
  | None =>
      Returned 1 (print_err (format_diagnostic name "missing colon in" line) st)
  | Some colon =>
      let key_len := Z.of_nat colon in
      let st :=
        sprintf_buf (format_field key_len line (len - key_len - 3)
                       (at_colon_2 w name line colon)) st in
      if strncmp line (lit "date") colon =? 0 then
        if negb (len =? date_line_len) then
          Returned 1 (print_err (format_diagnostic name "malformed date" line) st)
        else
          let s := read_DateString (drop (colon + 2) line) in
          Running (set_post {| date := date_of s; json := json (post st) |} st)
      else Running st
  end.

(** Lines 65-87: the inner loop over the lines still to be read. *)
Fixpoint read_header (w : World) (name : list ascii) (lines : list (list ascii))
    (st : state) : flow :=
  match lines with
  | [] => Running st
  | line :: rest =>
      if strcmp line metadata_separator =? 0 then Running st
      else match header_line w name line st with
           | Running st' => read_header w name rest st'
           | Returned status st' => Returned status st'
           end
  end.

Definition is_hidden (name : list ascii) : bool :=
  match name with
  | c :: _ => Ascii.eqb c "."
  | [] => false
  end.

(** Lines 49-95: the body of the outer loop for one directory entry. *)
Definition visit (w : World) (ent : dirent) (st : state) : flow :=
  let name := d_name ent in
  if is_hidden name then Running st
  else
    let st := set_post {| date := indeterminate_date w (nposts st);
                          json := Buffer (length (buf st)) |} st in
    let st := sprintf_buf (format_path name) st in
    match d_fopen ent with
    | fopen_fails msg => Returned 1 (perror name msg st)
    | fopen_ok contents =>
        match read_header w name (tail (getlines contents)) st with
        | Returned status st' => Returned status st'
        | Running st =>
            let st := store_buf "}" st in
            let st := store_buf NUL st in
            let st := store_post st in
            if (MAX_POSTS <? nposts st)%nat then
              Returned 1 (print_err (format_too_many (nposts st)) st)
            else Running st
        end
    end.

(** Lines 48-96: the outer loop over the entries [readdir] still has. *)
Fixpoint readdir_loop (w : World) (ents : list dirent) (st : state) : flow :=
  match ents with
  | [] => Running st
  | ent :: rest =>
      match visit w ent st with
      | Running st' => readdir_loop w rest st'
      | Returned status st' => Returned status st'
      end
  end.

(** Lines 99-101. *)
Definition print_posts (st : state) : state :=
  foldl (fun st i =>
           match posts st !! i with
           | Some p => puts (json p) st
           | None => st
           end) st (seq 0 (nposts st)).

Section Main.

(** [qsort(base, n, sizeof(struct Post), cmp)] on the [n] records at
    [base], as a function of the comparison and of those records. *)
Variable qsort : (Post -> Post -> Z) -> list Post -> list Post.

Definition main (w : World) : Z * state :=
  match opendir_posts w with
  | inl msg => (1, perror posts_dir msg initial)
  | inr ents =>
      match readdir_loop w ents initial with
      | Returned status st => (status, st)
      | Running st =>
          let st := set_posts (qsort cmp_posts (take (nposts st) (posts st))
                               ++ drop (nposts st) (posts st)) st in
          let st := print_out (lit "[" ++ [LF]) st in
          let st := print_posts st in
          let st := print_out (lit "]" ++ [LF]) st in
          (0, st)
      end
  end.

End Main.

(** What a caller of the program observes. *)
Definition exit_status (r : Z * state) : Z := fst r.

Definition standard_output (r : Z * state) : list ascii := stdout (snd r).

Definition standard_error (r : Z * state) : list ascii := stderr (snd r).

Definition memory_faults (r : Z * state) : list fault := faults (snd r).

(** A [qsort] used to run the program on examples: straight insertion,
    which moves a record only in front of records that compare greater. *)
Fixpoint insert_sorted (cmp : Post -> Post -> Z) (p : Post) (l : list Post)
  : list Post :=
  match l with
  | [] => [p]
  | q :: l' => if 0 <? cmp q p then p :: q :: l' else q :: insert_sorted cmp p l'
  end.

Fixpoint sorted_prefix (cmp : Post -> Post -> Z) (done todo : list Post) : list Post :=
  match todo with
  | [] => done
  | p :: todo' => sorted_prefix cmp (insert_sorted cmp p done) todo'
  end.

Definition insertion_qsort (cmp : Post -> Post -> Z) (l : list Post) : list Post :=
  sorted_prefix cmp [] l.

(** ** The loops as functions of their input *)

(** The header of a stream: the lines before the first separator. *)
Fixpoint header_of (lines : list (list ascii)) : list (list ascii) :=
  match lines with
  | [] => []
  | line :: rest =>
      if strcmp line metadata_separator =? 0 then [] else line :: header_of rest
  end.

(** The lines on which [header_line] takes its date branch. *)
Definition is_date_line (line : list ascii) : bool :=
  match strchr line ":" with
  | Some colon => strncmp line (lit "date") colon =? 0
  | None => false
  end.

(** The lines after which [header_line] goes on. *)
Definition line_accepted (line : list ascii) : bool :=
  match strchr line ":" with
  | Some _ =>
      if is_date_line line then Z.of_nat (length line) =? date_line_len else true
  | None => false
  end.

(** What [header_line] appends to the buffer. *)
Definition header_text (w : World) (name line : list ascii) : list ascii :=
  match strchr line ":" with
  | Some colon =>
      format_field (Z.of_nat colon) line
        (Z.of_nat (length line) - Z.of_nat colon - 3)
        (at_colon_2 w name line colon)
  | None => []
  end.

(** The sort key [header_line] derives on its date branch. *)
Definition line_date (line : list ascii) : Z :=
  match strchr line ":" with
  | Some colon => date_of (read_DateString (drop (colon + 2) line))
  | None => 0
  end.

(** The diagnostic with which [header_line] returns. *)
Definition line_diagnostic (name line : list ascii) : list ascii :=
  match strchr line ":" with
  | Some _ => format_diagnostic name "malformed date" line
  | None => format_diagnostic name "missing colon in" line
  end.

(** The state in which an accepted line leaves the loop body. *)
Definition header_step (w : World) (name line : list ascii) (st : state) : state :=
  let st' := sprintf_buf (header_text w name line) st in
  if is_date_line line
  then set_post {| date := line_date line; json := json (post st) |} st'
  else st'.

Definition header_run (w : World) (name : list ascii) (lines : list (list ascii))
    (st : state) : state :=
  foldl (fun st line => header_step w name line st) st lines.

(** The sort key after a header: that of its last date line, if any. *)
Definition last_date (lines : list (list ascii)) (before : Z) : Z :=
  match last (filter (fun l => is_date_line l = true) lines) with
  | Some l => line_date l
  | None => before
  end.

(** The header lines of a file: after the first line, up to a separator. *)
Definition header_lines (contents : list ascii) : list (list ascii) :=
  header_of (tail (getlines contents)).

(** The text of the record that [visit] renders for a file. *)
Definition record_text (w : World) (name contents : list ascii) : list ascii :=
  format_path name
  ++ concat (map (header_text w name) (header_lines contents))
  ++ lit "}".

(** The sort key of the record number [n], rendered from a file. *)
Definition record_date (w : World) (n : nat) (contents : list ascii) : Z :=
  last_date (header_lines contents) (indeterminate_date w n).

#[global] Arguments record_text : simpl never.

(** The entries that the outer loop does not skip. *)
Definition visible (ents : list dirent) : list dirent :=
  filter (fun e => is_hidden (d_name e) = false) ents.

(** The entries whose name does not begin with a dot, in the words of
    the specification (section 4.1). *)
Definition listed (ents : list dirent) : list dirent :=
  filter (fun e => head (d_name e) ≠ Some "."%char) ents.

(** The path field with which the record of the entry [name] begins. *)
Definition path_field (name : list ascii) : list ascii :=
  lit "{" ++ DQUOTE :: lit "path" ++ DQUOTE :: lit ": "
  ++ DQUOTE :: c_str name ++ [DQUOTE].

(** The bytes of the file of an entry that [fopen] opens. *)
Definition contents_of (ent : dirent) : list ascii :=
  match d_fopen ent with
  | fopen_ok contents => contents
  | fopen_fails _ => []
  end.

(** The text of the record rendered for an entry that could be opened. *)
Definition entry_text (w : World) (ent : dirent) : list ascii :=
  record_text w (d_name ent) (contents_of ent).

(** ** The buffer as [puts] reads it *)

(** The pointer [p] points at the C string [text] in the buffer [b]. *)
Definition holds (b : list ascii) (p : ptr) (text : list ascii) : Prop :=
  exists off rest,
    p = Buffer off /\ drop off b = text ++ NUL :: rest /\ NUL ∉ text.

(** What [puts] reads at a pointer into the buffer [b]. *)
Definition text_at (b : list ascii) (p : ptr) : list ascii :=
  match p with
  | Buffer off => c_str (drop off b)
  | NULL => []
  end.

(** What [puts] writes for a pointer into the buffer [b]. *)
Definition puts_text (b : list ascii) (p : ptr) : list ascii :=
  match p with
  | Buffer off => c_str (drop off b) ++ [LF]
  | NULL => []
  end.

(** The records stored so far point at the texts of the entries [ents],
    in that order. *)
Definition rendered (w : World) (st : state) (ents : list dirent) : Prop :=
  Forall2 (fun p e => holds (buf st) (json p) (entry_text w e))
          (take (nposts st) (posts st)) ents.

(** ** The contract of [qsort] *)

(** The array holds the same records after the call. *)
Definition permutes (qsort : (Post -> Post -> Z) -> list Post -> list Post) : Prop :=
  forall cmp l, qsort cmp l ≡ₚ l.

(** Records that all compare equal to one another stay where they are. *)
Definition keeps_ties (qsort : (Post -> Post -> Z) -> list Post -> list Post) : Prop :=
  forall cmp l, (forall a b, a ∈ l -> b ∈ l -> cmp a b = 0) -> qsort cmp l = l.

(** What the C standard asks of [qsort] (7.22.5.2): the array is sorted
    into ascending order according to the comparison function, which
    has to order the elements consistently; the order of two elements
    that compare equal is unspecified.  [keeps_ties] is therefore no
    part of the contract of the library. *)
Fixpoint ascending (cmp : Post -> Post -> Z) (l : list Post) : Prop :=
  match l with
  | [] => True
  | a :: l' => Forall (fun b => cmp a b <= 0) l' /\ ascending cmp l'
  end.

Definition consistent (cmp : Post -> Post -> Z) : Prop :=
  (forall a b, 0 < cmp a b -> cmp b a < 0)
  /\ (forall a b c, cmp a b <= 0 -> cmp b c <= 0 -> cmp a c <= 0).

Definition sorts (qsort : (Post -> Post -> Z) -> list Post -> list Post) : Prop :=
  forall cmp l, consistent cmp -> ascending cmp (qsort cmp l).

(** A [qsort] within that contract which does not keep ties in place:
    straight insertion from the last element to the first. *)
Definition rev_qsort (cmp : Post -> Post -> Z) (l : list Post) : list Post :=
  insertion_qsort cmp (reverse l).

(** ** The sort key as a number *)

(** A byte sequence read as a big-endian integer. *)
Definition big_endian (bytes : list ascii) : Z :=
  foldl (fun acc c => acc * 256 + uchar c) 0 bytes.

(** The eight bytes of a [DateString] that go into the sort key. *)
Definition packed (s : DateString) : list ascii :=
  let '(y0, y1, y2, y3) := y s in
  let '(m0, m1) := m s in
  let '(d0, d1) := d s in
  [y0; y1; y2; y3; m0; m1; d0; d1].

(** The calendar date that a [DateString] of decimal digits denotes. *)
Definition is_digit (c : ascii) : bool := (48 <=? uchar c) && (uchar c <=? 57).

Definition digit (c : ascii) : Z := uchar c - 48.

Definition all_digits (s : DateString) : bool := forallb is_digit (packed s).

Definition year (s : DateString) : Z :=
  let '(y0, y1, y2, y3) := y s in
  1000 * digit y0 + 100 * digit y1 + 10 * digit y2 + digit y3.

Definition month (s : DateString) : Z :=
  let '(m0, m1) := m s in 10 * digit m0 + digit m1.

Definition day (s : DateString) : Z :=
  let '(d0, d1) := d s in 10 * digit d0 + digit d1.

Definition earlier (s1 s2 : DateString) : Prop :=
  year s1 < year s2
  \/ (year s1 = year s2
      /\ (month s1 < month s2 \/ (month s1 = month s2 /\ day s1 < day s2))).

(** ** Post files and their JSON objects *)

(** The layout of a post file in the words of the specification
    (section 6), to be compared with what the program reads: a post file
    is a title line, then metadata lines of the shape [key: value], each
    with its newline, then the end of the file or a separator line and a
    body.  [json_object] is the text of section 4.4 for it: the path
    field followed by one string field per metadata line, the strings
    copied as they are.  Which object that text denotes is for a reader
    of JSON to say: see [json_members] below. *)
Record post_file := {
  pf_name : list ascii;
  pf_title : list ascii;
  pf_fields : list (list ascii * list ascii);
  pf_body : option (list ascii)
}.

Definition field_line (kv : list ascii * list ascii) : list ascii :=
  fst kv ++ lit ": " ++ snd kv ++ [LF].

Definition file_contents (f : post_file) : list ascii :=
  pf_title f ++ [LF]
  ++ concat (map field_line (pf_fields f))
  ++ match pf_body f with
     | Some body => metadata_separator ++ body
     | None => []
     end.

Definition dirent_of (f : post_file) : dirent :=
  {| d_name := pf_name f; d_fopen := fopen_ok (file_contents f) |}.

Definition json_field (kv : list ascii * list ascii) : list ascii :=
  lit ", " ++ quoted (fst kv) ++ lit ": " ++ quoted (snd kv).

Definition json_object (f : post_file) : list ascii :=
  lit "{" ++ quoted (lit "path") ++ lit ": " ++ quoted (pf_name f)
  ++ concat (map json_field (pf_fields f))
  ++ lit "}".

(** The byte [c] does not occur in [s]. *)
Definition absent (c : ascii) (s : list ascii) : bool :=
  forallb (fun a => negb (Ascii.eqb a c)) s.

(** A key holds no colon, and neither keys nor values hold a NUL or a
    newline; the name is a C string and the title is one line. *)
Definition well_formed_field (kv : list ascii * list ascii) : bool :=
  absent ":" (fst kv) && absent NUL (fst kv) && absent LF (fst kv)
  && absent NUL (snd kv) && absent LF (snd kv).

Definition well_formed (f : post_file) : bool :=
  absent NUL (pf_name f) && absent LF (pf_title f)
  && forallb well_formed_field (pf_fields f).

(** ** Reading a JSON object *)

(** A reader of JSON texts (RFC 8259) of the shape that the
    specification gives to a record: an object whose member values are
    strings.  A JSON text is encoded in UTF-8 (RFC 3629).  The reader
    goes through the text byte by byte and returns the members in the
    order of the text, names and values with their escapes resolved; it
    returns [None] for a text that is not of that shape.  Inside a
    string a double quote ends the string, a backslash starts an escape
    and a control character is not allowed; between the tokens, white
    space is skipped.  Of the escapes, the reader takes the
    two-character ones and not the [\u] form.  The reader is written
    from the two grammars and owes nothing to the program. *)
Definition BACKSLASH : ascii := "092"%char.

(** The well-formed byte sequences of UTF-8 (RFC 3629, section 4), as
    the states between the bytes of one character. *)
Inductive utf8_state :=
  | u_start   (* between two characters *)
  | u_one     (* one more byte of 80..BF *)
  | u_two     (* two more bytes of 80..BF *)
  | u_three   (* three more bytes of 80..BF *)
  | u_e0      (* after E0: A0..BF, then one more *)
  | u_ed      (* after ED: 80..9F, then one more *)
  | u_f0      (* after F0: 90..BF, then two more *)
  | u_f4.     (* after F4: 80..8F, then two more *)

Definition in_range (lo hi : Z) (c : ascii) : bool :=
  (lo <=? uchar c) && (uchar c <=? hi).

Definition utf8_step (q : utf8_state) (c : ascii) : option utf8_state :=
  match q with
  | u_start =>
      if in_range 0 127 c then Some u_start
      else if in_range 194 223 c then Some u_one
      else if in_range 224 224 c then Some u_e0
      else if in_range 225 236 c then Some u_two
      else if in_range 237 237 c then Some u_ed
      else if in_range 238 239 c then Some u_two
      else if in_range 240 240 c then Some u_f0
      else if in_range 241 243 c then Some u_three
      else if in_range 244 244 c then Some u_f4
      else None
  | u_one => if in_range 128 191 c then Some u_start else None
  | u_two => if in_range 128 191 c then Some u_one else None
  | u_three => if in_range 128 191 c then Some u_two else None
  | u_e0 => if in_range 160 191 c then Some u_one else None
  | u_ed => if in_range 128 159 c then Some u_one else None
  | u_f0 => if in_range 144 191 c then Some u_two else None
  | u_f4 => if in_range 128 143 c then Some u_two else None
  end.

Fixpoint utf8_run (q : utf8_state) (s : list ascii) : option utf8_state :=
  match s with
  | [] => Some q
  | c :: s' =>
      match utf8_step q c with
      | Some q' => utf8_run q' s'
      | None => None
      end
  end.

Definition utf8 (s : list ascii) : bool :=
  match utf8_run u_start s with
  | Some u_start => true
  | _ => false
  end.

Definition CR : ascii := "013"%char.

Inductive json_state :=
  | js_start                                 (* before the opening brace *)
  | js_open                                  (* after it: a name, or the closing brace *)
  | js_name (acc : list ascii)               (* inside a name *)
  | js_name_escape (acc : list ascii)        (* inside a name, after a backslash *)
  | js_colon (name : list ascii)             (* after a name: the colon *)
  | js_before_value (name : list ascii)      (* after the colon: the value *)
  | js_value (name acc : list ascii)         (* inside a value *)
  | js_value_escape (name acc : list ascii)  (* inside a value, after a backslash *)
  | js_after_value                           (* a comma, or the closing brace *)
  | js_comma                                 (* after a comma: a name *)
  | js_end.                                  (* after the closing brace *)

Definition json_ws (c : ascii) : bool :=
  Ascii.eqb c " " || Ascii.eqb c TAB || Ascii.eqb c LF || Ascii.eqb c CR.

Definition json_control (c : ascii) : bool := uchar c <? 32.

Definition json_escape (c : ascii) : option ascii :=
  if Ascii.eqb c DQUOTE then Some DQUOTE
  else if Ascii.eqb c BACKSLASH then Some BACKSLASH
  else if Ascii.eqb c "/" then Some "/"%char
  else if Ascii.eqb c "b" then Some "008"%char
  else if Ascii.eqb c "f" then Some "012"%char
  else if Ascii.eqb c "n" then Some LF
  else if Ascii.eqb c "r" then Some CR
  else if Ascii.eqb c "t" then Some TAB
  else None.

Fixpoint json_read (q : json_state) (members : list (list ascii * list ascii))
    (text : list ascii) : option (list (list ascii * list ascii)) :=
  match text with
  | [] => match q with js_end => Some members | _ => None end
  | c :: text' =>
      match q with
      | js_start =>
          if json_ws c then json_read js_start members text'
          else if Ascii.eqb c "{" then json_read js_open members text'
          else None
      | js_open =>
          if json_ws c then json_read js_open members text'
          else if Ascii.eqb c DQUOTE then json_read (js_name []) members text'
          else if Ascii.eqb c "}" then json_read js_end members text'
          else None
      | js_name acc =>
          if Ascii.eqb c DQUOTE then json_read (js_colon acc) members text'
          else if Ascii.eqb c BACKSLASH then json_read (js_name_escape acc) members text'
          else if json_control c then None
          else json_read (js_name (acc ++ [c])) members text'
      | js_name_escape acc =>
          match json_escape c with
          | Some a => json_read (js_name (acc ++ [a])) members text'
          | None => None
          end
      | js_colon name =>
          if json_ws c then json_read (js_colon name) members text'
          else if Ascii.eqb c ":" then json_read (js_before_value name) members text'
          else None
      | js_before_value name =>
          if json_ws c then json_read (js_before_value name) members text'
          else if Ascii.eqb c DQUOTE then json_read (js_value name []) members text'
          else None
      | js_value name acc =>
          if Ascii.eqb c DQUOTE
          then json_read js_after_value (members ++ [(name, acc)]) text'
          else if Ascii.eqb c BACKSLASH
          then json_read (js_value_escape name acc) members text'
          else if json_control c then None
          else json_read (js_value name (acc ++ [c])) members text'
      | js_value_escape name acc =>
          match json_escape c with
          | Some a => json_read (js_value name (acc ++ [a])) members text'
          | None => None
          end
      | js_after_value =>
          if json_ws c then json_read js_after_value members text'
          else if Ascii.eqb c "," then json_read js_comma members text'
          else if Ascii.eqb c "}" then json_read js_end members text'
          else None
      | js_comma =>
          if json_ws c then json_read js_comma members text'
          else if Ascii.eqb c DQUOTE then json_read (js_name []) members text'
          else None
      | js_end =>
          if json_ws c then json_read js_end members text' else None
      end
  end.

(** The members of the JSON object that [text] denotes. *)
Definition json_members (text : list ascii)
  : option (list (list ascii * list ascii)) :=
  if utf8 text then json_read js_start [] text else None.

(** A string that stands for itself between double quotes in a JSON
    text: UTF-8 text with no double quote, no backslash and no control
    character. *)
Definition plain (s : list ascii) : bool :=
  utf8 s
  && forallb (fun c => negb (Ascii.eqb c DQUOTE) && negb (Ascii.eqb c BACKSLASH)
                       && negb (json_control c)) s.

(** A post file whose name, keys and values are such strings. *)
Definition plain_field (kv : list ascii * list ascii) : bool :=
  plain (fst kv) && absent ":" (fst kv) && plain (snd kv).

Definition plain_file (f : post_file) : bool :=
  plain (pf_name f) && absent LF (pf_title f) && forallb plain_field (pf_fields f).

(** ** Example worlds *)

Definition no_garbage (entries : list dirent) : World :=
  {| opendir_posts := inr entries;
     indeterminate_date := fun _ => 0;
     past_terminator := fun _ => [] |}.

Definition text_file (name : string) (lines : list string) : dirent :=
  {| d_name := lit name;
     d_fopen := fopen_ok (concat (map (fun l => lit l ++ [LF]) lines)) |}.

Definition hidden_only : World :=
  no_garbage [ {| d_name := lit "."; d_fopen := fopen_ok [] |};
               {| d_name := lit ".."; d_fopen := fopen_ok [] |};
               text_file ".gitkeep" [] ].

Definition christmas : dirent :=
  text_file "christmas.md" ["# Holidays"; "title: Holidays"; "date: 2023-12-25"; "---"; "Ho ho ho."].

Definition spring : dirent :=
  text_file "spring.md" ["# Spring"; "title: Spring"; "date: 2024-03-01"; "---"; "Flowers."].

Definition no_colon : dirent :=
  text_file "draft.md" ["# Draft"; "title: Draft"; "to be written"; "---"].

Definition short_date : dirent :=
  text_file "short.md" ["# Short"; "date: 2024-01-15"; "date: 2024-1-5"; "---"].

Definition two_dates : dirent :=
  text_file "moved.md" ["# Moved"; "date: 2023-12-31"; "title: Moved"; "date: 2024-02-01"; "---"].

Definition dat_key : dirent :=
  text_file "a.md" ["# A"; "dat: x"; "---"].

Definition january : dirent :=
  text_file "january.md" ["# January"; "date: 2024-01-15"; "---"].

Definition january_line : list ascii := lit "date: 2024-01-15" ++ [LF].

Definition with_january : World := no_garbage [january].

Definition with_draft : World := no_garbage [christmas; no_colon; spring].

Definition with_short_date : World := no_garbage [christmas; short_date; spring].

Definition with_two_dates : World := no_garbage [two_dates].

Definition with_dat_key : World := no_garbage [dat_key].

Definition older_first : World := no_garbage [christmas; spring].

Definition crowded : World :=
  no_garbage (replicate 101 (text_file "p.md" ["# P"; "date: 2024-01-15"; "---"])).

Definition christmas_file : post_file :=
  {| pf_name := lit "christmas.md";
     pf_title := lit "# Holidays";
     pf_fields := [(lit "title", lit "Holidays"); (lit "date", lit "2023-12-25")];
     pf_body := Some (lit "Ho ho ho." ++ [LF]) |}.

Definition spring_file : post_file :=
  {| pf_name := lit "spring.md";
     pf_title := lit "# Spring";
     pf_fields := [(lit "title", lit "Spring"); (lit "date", lit "2024-03-01")];
     pf_body := Some (lit "Flowers." ++ [LF]) |}.

(** A post file with one metadata line, whose value holds double quotes:
    the line is [title: x", "draft": "yes]. *)
Definition quoting_file : post_file :=
  {| pf_name := lit "a.md";
     pf_title := lit "# A";
     pf_fields := [(lit "title",
                    lit "x" ++ DQUOTE :: lit ", " ++ DQUOTE :: lit "draft"
                    ++ DQUOTE :: lit ": " ++ DQUOTE :: lit "yes")];
     pf_body := None |}.

(** A post file with the two metadata lines [title: x] and [draft: yes]. *)
Definition drafted_file : post_file :=
  {| pf_name := lit "a.md";
     pf_title := lit "# A";
     pf_fields := [(lit "title", lit "x"); (lit "draft", lit "yes")];
     pf_body := None |}.

(** A post file whose value holds a backslash: the line is [title: a\tb],
    with the two bytes backslash and [t]. *)
Definition escaping_file : post_file :=
  {| pf_name := lit "a.md";
     pf_title := lit "# A";
     pf_fields := [(lit "title", lit "a" ++ BACKSLASH :: lit "tb")];
     pf_body := None |}.

(** A post file whose value holds a control character, a tab. *)
Definition tabbed_file : post_file :=
  {| pf_name := lit "a.md";
     pf_title := lit "# A";
     pf_fields := [(lit "title", lit "a" ++ TAB :: lit "b")];
     pf_body := None |}.

(** A post file whose value is not UTF-8 text: [Caf] and the byte E9. *)
Definition latin1_file : post_file :=
  {| pf_name := lit "a.md";
     pf_title := lit "# A";
     pf_fields := [(lit "title", lit "Caf" ++ ["233"%char])];
     pf_body := None |}.

(** A file that ends after [title: Hello], without a newline. *)
Definition unterminated : dirent :=
  {| d_name := lit "a.md";
     d_fopen := fopen_ok (lit "# A" ++ LF :: lit "title: Hello") |}.

Definition truncated_file : post_file :=
  {| pf_name := lit "a.md";
     pf_title := lit "# A";
     pf_fields := [(lit "title", lit "Hell")];
     pf_body := None |}.

(** ** Notions for the further properties *)

(** The world [w] with the entries [ents] in the directory. *)
Definition with_entries (w : World) (ents : list dirent) : World :=
  {| opendir_posts := inr ents;
     indeterminate_date := indeterminate_date w;
     past_terminator := past_terminator w |}.

(** The entries that the outer loop goes through: the file opens and
    every line of its header is accepted. *)
Definition entry_ok (ent : dirent) : bool :=
  match d_fopen ent with
  | fopen_ok contents => forallb line_accepted (header_lines contents)
  | fopen_fails _ => false
  end.

(** The bytes that the records of the visible entries take in the
    buffer, each with its terminator. *)
Definition rendered_bytes (w : World) (ents : list dirent) : list ascii :=
  concat (map (fun e => entry_text w e ++ [NUL]) (visible ents)).

(** No store outside an array has been recorded exactly when the bytes
    written so far fit in the buffer: between two records, where the
    last byte written is a terminator, and inside a record, where
    [sprintf] has put a terminator after the bytes. *)
Definition fits (st : state) : Prop :=
  faults st = [] <-> (length (buf st) <= buffer_size)%nat.

Definition fits_open (st : state) : Prop :=
  faults st = [] <-> (length (buf st) < buffer_size)%nat.

(** The file [name] with the given bytes. *)
Definition file (name contents : list ascii) : dirent :=
  {| d_name := name; d_fopen := fopen_ok contents |}.

(** The lines whose first colon is their last byte: for these, and for
    these only, [colon + 2] lies past the terminator of the line. *)
Definition ends_at_colon (line : list ascii) : bool :=
  match strchr line ":" with
  | Some colon => (length line <? colon + 2)%nat
  | None => false
  end.

Definition locked : dirent :=
  {| d_name := lit "locked.md"; d_fopen := fopen_fails (lit "Permission denied") |}.

Definition undated : dirent :=
  text_file "undated.md" ["# Undated"; "title: No date"; "---"; "Body."].

Definition with_locked : World := no_garbage [christmas; locked; spring].

Definition with_hidden : World :=
  no_garbage [ {| d_name := lit "."; d_fopen := fopen_ok [] |};
               christmas;
               {| d_name := lit ".draft.md"; d_fopen := fopen_fails (lit "Permission denied") |};
               spring ].

(** One file whose single header value is longer than the buffer. *)
Definition oversized : World :=
  no_garbage [ file (lit "big.md")
                 (lit "# Big" ++ [LF] ++ lit "text: "
                  ++ replicate (260 * 100) "x"%char ++ [LF]) ].

(** ** Tactics *)

(** Projections of a state built by the statements of [main]. *)
Ltac state_simpl :=
  cbn [buf posts nposts post stdout stderr faults date json
       sprintf_buf store_buf store_post set_post set_posts
       print_out print_err perror] in *.

(** Closed goals about the example worlds are settled by evaluation. *)
Ltac run := vm_compute; reflexivity.

Ltac run_lines :=
  solve [ repeat first [ apply Forall_nil_2 | apply Forall_cons_2; [run|] ] ].

(** ** Facts about the C library functions *)

#[local] Arguments Ascii.eqb : simpl never.

Lemma forallb_Forall {A} (f : A -> bool) l :
  forallb f l = true <-> Forall (fun x => f x = true) l.
Proof.
  induction l as [|x l IH]; simpl.
  - split; [constructor | done].
  - rewrite andb_true_iff, IH, Forall_cons. done.
Qed.

Lemma uchar_range c : 0 <= uchar c < 256.
Proof.
  unfold uchar. pose proof (N_ascii_bounded c). lia.
Qed.

Lemma uchar_inj c1 c2 : uchar c1 = uchar c2 -> c1 = c2.
Proof.
  unfold uchar. intros H. apply N2Z.inj in H.
  rewrite <- (ascii_N_embedding c1), <- (ascii_N_embedding c2). by rewrite H.
Qed.

Lemma eqb_NUL_false c : c ≠ NUL -> Ascii.eqb c NUL = false.
Proof. intros. by apply Ascii.eqb_neq. Qed.

Lemma c_str_no_NUL s : NUL ∉ c_str s.
Proof.
  induction s as [|c s IH]; simpl; [apply not_elem_of_nil|].
  destruct (Ascii.eqb_spec c NUL); [apply not_elem_of_nil|].
  rewrite not_elem_of_cons. split; [congruence | done].
Qed.

Lemma c_str_id s : NUL ∉ s -> c_str s = s.
Proof.
  induction s as [|c s IH]; simpl; [done|].
  rewrite not_elem_of_cons. intros [Hc Hs].
  rewrite eqb_NUL_false by congruence. by rewrite IH.
Qed.

Lemma c_str_app_NUL s r : NUL ∉ s -> c_str (s ++ NUL :: r) = s.
Proof.
  induction s as [|c s IH]; simpl; [done|].
  rewrite not_elem_of_cons. intros [Hc Hs].
  rewrite eqb_NUL_false by congruence. by rewrite IH.
Qed.

Lemma printf_prec_s_no_NUL prec s : NUL ∉ printf_prec_s prec s.
Proof.
  unfold printf_prec_s. destruct (prec <? 0); [apply c_str_no_NUL|].
  intros H. apply elem_of_take in H as (i & H & _).
  apply list_elem_of_lookup_2 in H. by apply c_str_no_NUL in H.
Qed.

(** [strchr] returns the first position of the byte, and stops at the
    terminator. *)
Lemma strchr_Some s c k :
  c ≠ NUL -> strchr s c = Some k ->
  s !! k = Some c /\ (c ∉ take k s) /\ (NUL ∉ take k s).
Proof.
  intros Hc. revert k. induction s as [|a s IH]; intros k; simpl.
  - rewrite eqb_NUL_false by done. discriminate.
  - destruct (Ascii.eqb_spec a c) as [->|Ha].
    + intros [= <-]. simpl. split; [done|]. split; apply not_elem_of_nil.
    + destruct (Ascii.eqb_spec a NUL) as [->|Ha0]; [discriminate|].
      destruct (strchr s c) as [k'|] eqn:E; simpl; [|discriminate].
      intros [= <-]. destruct (IH k' eq_refl) as (H1 & H2 & H3).
      simpl. split; [done|]. rewrite !not_elem_of_cons. auto.
Qed.

Lemma strchr_None s c : c ≠ NUL -> strchr s c = None -> c ∉ c_str s.
Proof.
  intros Hc. induction s as [|a s IH]; simpl.
  - intros _. apply not_elem_of_nil.
  - destruct (Ascii.eqb_spec a c) as [->|Ha]; [discriminate|].
    destruct (Ascii.eqb_spec a NUL) as [->|Ha0]; [intros _; apply not_elem_of_nil|].
    destruct (strchr s c) eqn:E; simpl; [discriminate|].
    intros _. rewrite not_elem_of_cons. split; [congruence|auto].
Qed.

Lemma strchr_app key c rest :
  c ∉ key -> NUL ∉ key -> strchr (key ++ c :: rest) c = Some (length key).
Proof.
  induction key as [|a key IH]; simpl.
  - intros _ _. by rewrite Ascii.eqb_refl.
  - rewrite !not_elem_of_cons. intros [Hc Hk] [H0 Hk0].
    destruct (Ascii.eqb_spec a c); [congruence|].
    rewrite eqb_NUL_false by congruence. by rewrite IH.
Qed.

(** [strcmp] returns 0 exactly on equal C strings. *)
Lemma strcmp_0 s1 s2 : strcmp s1 s2 = 0 <-> c_str s1 = c_str s2.
Proof.
  revert s2. induction s1 as [|c1 s1 IH]; intros [|c2 s2]; simpl.
  - done.
  - destruct (Ascii.eqb_spec c2 NUL) as [->|H]; [done|].
    split; [|done]. intros E. exfalso. apply H, uchar_inj.
    change (uchar NUL) with 0 in *. lia.
  - destruct (Ascii.eqb_spec c1 NUL) as [->|H]; [done|].
    split; [|done]. intros E. exfalso. apply H, uchar_inj.
    change (uchar NUL) with 0 in *. lia.
  - destruct (Ascii.eqb_spec c1 c2) as [->|H].
    + destruct (Ascii.eqb_spec c2 NUL); [done|].
      rewrite IH. split; [congruence|]. by intros [= ->].
    + split.
      * intros E. exfalso. apply H, uchar_inj. lia.
      * destruct (Ascii.eqb_spec c1 NUL) as [->|H1];
          destruct (Ascii.eqb_spec c2 NUL) as [->|H2]; try done.
        intros [= ? _]. done.
Qed.

(** The lines of a file that starts with a newline-terminated line. *)
Lemma getlines_line l rest :
  LF ∉ l -> getlines (l ++ LF :: rest) = (l ++ [LF]) :: getlines rest.
Proof.
  induction l as [|c l IH]; simpl.
  - done.
  - rewrite not_elem_of_cons. intros [Hc Hl].
    destruct (Ascii.eqb_spec c LF); [congruence|].
    by rewrite IH.
Qed.

(** ** The inner loop, line by line *)

Lemma header_line_accepted w name line st :
  line_accepted line = true ->
  header_line w name line st = Running (header_step w name line st).
Proof.
  unfold line_accepted, header_line, header_step, is_date_line, header_text, line_date.
  destruct (strchr line ":") as [colon|]; [|discriminate].
  destruct (strncmp line (lit "date") colon =? 0); [|done].
  intros ->. done.
Qed.

Lemma header_line_rejected w name line st :
  line_accepted line = false ->
  exists st', header_line w name line st = Returned 1 st'
    /\ stdout st' = stdout st
    /\ stderr st' = stderr st ++ line_diagnostic name line.
Proof.
  unfold line_accepted, header_line, is_date_line, line_diagnostic.
  destruct (strchr line ":") as [colon|].
  - destruct (strncmp line (lit "date") colon =? 0); [|discriminate].
    intros ->. simpl. eauto.
  - intros _. simpl. eauto.
Qed.

Lemma header_of_app_not_sep l1 l2 :
  Forall (fun l => strcmp l metadata_separator ≠ 0) l1 ->
  header_of (l1 ++ l2) = l1 ++ header_of l2.
Proof.
  induction 1 as [|l l1 Hl _ IH]; simpl; [done|].
  apply Z.eqb_neq in Hl. by rewrite Hl, IH.
Qed.

(** The inner loop goes through an accepted header. *)
Lemma read_header_accepted w name lines st :
  Forall (fun l => line_accepted l = true) (header_of lines) ->
  read_header w name lines st = Running (header_run w name (header_of lines) st).
Proof.
  revert st. induction lines as [|l lines IH]; intros st; simpl; [done|].
  destruct (strcmp l metadata_separator =? 0); [done|].
  intros H. apply Forall_cons in H as [Hl H].
  rewrite header_line_accepted by done. simpl. by apply IH.
Qed.

(** The inner loop returns at the first line that is not accepted. *)
Lemma read_header_rejected w name lines ok bad rest st :
  header_of lines = ok ++ bad :: rest ->
  Forall (fun l => line_accepted l = true) ok ->
  line_accepted bad = false ->
  exists st', read_header w name lines st = Returned 1 st'
    /\ stdout st' = stdout st
    /\ stderr st' = stderr (header_run w name ok st) ++ line_diagnostic name bad.
Proof.
  revert ok st. induction lines as [|l lines IH]; intros ok st; simpl.
  - by destruct ok.
  - destruct (strcmp l metadata_separator =? 0); [by destruct ok|].
    destruct ok as [|o ok]; simpl.
    + intros [= -> E] _ Hbad.
      destruct (header_line_rejected w name bad st Hbad) as (st' & -> & ? & ?).
      eauto.
    + intros [= -> E] Hok Hbad. apply Forall_cons in Hok as [Ho Hok].
      rewrite header_line_accepted by done.
      destruct (IH ok (header_step w name o st) E Hok Hbad) as (st' & -> & Hout & Herr).
      exists st'. split; [done|]. split; [|done].
      rewrite Hout. unfold header_step.
      by destruct (is_date_line o).
Qed.

(** Conversely, a header the loop went through was accepted. *)
Lemma read_header_Running w name lines st st' :
  read_header w name lines st = Running st' ->
  Forall (fun l => line_accepted l = true) (header_of lines)
  /\ st' = header_run w name (header_of lines) st.
Proof.
  revert st. induction lines as [|l lines IH]; intros st; simpl.
  - intros [= <-]. by split.
  - destruct (strcmp l metadata_separator =? 0); [intros [= <-]; by split|].
    destruct (line_accepted l) eqn:Hl.
    + rewrite header_line_accepted by done. intros H.
      destruct (IH _ H) as [HF ->]. split; [by constructor | done].
    + destruct (header_line_rejected w name l st Hl) as (st1 & -> & _). discriminate.
Qed.

Lemma read_header_Returned w name lines st status st' :
  read_header w name lines st = Returned status st' ->
  status = 1 /\ stdout st' = stdout st.
Proof.
  revert st. induction lines as [|l lines IH]; intros st; simpl; [discriminate|].
  destruct (strcmp l metadata_separator =? 0); [discriminate|].
  destruct (line_accepted l) eqn:Hl.
  - rewrite header_line_accepted by done. intros H.
    destruct (IH _ H) as [-> ->]. split; [done|].
    unfold header_step. by destruct (is_date_line l).
  - destruct (header_line_rejected w name l st Hl) as (st1 & -> & Ho & _).
    by intros [= <- <-].
Qed.

(** The fields of the state after an accepted header. *)
Lemma header_run_buf w name lines st :
  buf (header_run w name lines st)
  = buf st ++ concat (map (header_text w name) lines).
Proof.
  revert st. induction lines as [|l lines IH]; intros st; simpl.
  - by rewrite app_nil_r.
  - unfold header_run in *. simpl. rewrite IH.
    assert (buf (header_step w name l st) = buf st ++ header_text w name l) as ->
      by (unfold header_step; by destruct (is_date_line l)).
    by rewrite <- app_assoc.
Qed.

Lemma header_run_frame w name lines st :
  let st' := header_run w name lines st in
  posts st' = posts st /\ nposts st' = nposts st
  /\ stdout st' = stdout st /\ stderr st' = stderr st
  /\ json (post st') = json (post st).
Proof.
  revert st. induction lines as [|l lines IH]; intros st; simpl; [done|].
  unfold header_run in *. simpl.
  destruct (IH (header_step w name l st)) as (-> & -> & -> & -> & ->).
  unfold header_step. by destruct (is_date_line l).
Qed.

Lemma last_date_cons l lines before :
  last_date (l :: lines) before
  = last_date lines (if is_date_line l then line_date l else before).
Proof.
  unfold last_date. rewrite filter_cons.
  destruct (decide (is_date_line l = true)) as [E|H].
  - rewrite E, last_cons. by destruct (last (filter _ lines)).
  - apply not_true_is_false in H. by rewrite H.
Qed.

Lemma header_run_date w name lines st :
  date (post (header_run w name lines st)) = last_date lines (date (post st)).
Proof.
  revert st. induction lines as [|l lines IH]; intros st; [done|].
  rewrite last_date_cons. unfold header_run in *. simpl. rewrite IH. f_equal.
  unfold header_step. by destruct (is_date_line l).
Qed.

(** ** The outer loop, entry by entry *)

Lemma Post_eta p : p = {| date := date p; json := json p |}.
Proof. by destruct p. Qed.

Lemma visit_hidden w ent st :
  is_hidden (d_name ent) = true -> visit w ent st = Running st.
Proof. unfold visit. by intros ->. Qed.

Lemma visit_Returned w ent st status st' :
  visit w ent st = Returned status st' ->
  status = 1 /\ stdout st' = stdout st.
Proof.
  unfold visit. destruct (is_hidden (d_name ent)); [discriminate|].
  destruct (d_fopen ent) as [msg|contents].
  - by intros [= <- <-].
  - destruct (read_header _ _ _ _) as [st1|status1 st1] eqn:E.
    + apply read_header_Running in E as [_ ->].
      destruct (_ <? _)%nat; [|discriminate].
      intros [= <- <-]. split; [done|]. simpl.
      by destruct (header_run_frame w (d_name ent)
                     (header_of (tail (getlines contents)))
                     (sprintf_buf (format_path (d_name ent))
                        (set_post {| date := indeterminate_date w (nposts st);
                                     json := Buffer (length (buf st)) |} st)))
        as (_ & _ & -> & _).
    + intros [= <- <-]. by apply read_header_Returned in E as [-> ->].
Qed.

Lemma visit_Running w ent st st' :
  visit w ent st = Running st' ->
  (is_hidden (d_name ent) = true /\ st' = st)
  \/ exists contents,
       is_hidden (d_name ent) = false
       /\ d_fopen ent = fopen_ok contents
       /\ Forall (fun l => line_accepted l = true) (header_lines contents)
       /\ (nposts st < MAX_POSTS)%nat
       /\ buf st' = buf st ++ record_text w (d_name ent) contents ++ [NUL]
       /\ posts st' = <[nposts st :=
                         {| date := record_date w (nposts st) contents;
                            json := Buffer (length (buf st)) |}]> (posts st)
       /\ nposts st' = S (nposts st)
       /\ stdout st' = stdout st /\ stderr st' = stderr st.
Proof.
  unfold visit. destruct (is_hidden (d_name ent)); [intros [= <-]; by left|].
  destruct (d_fopen ent) as [msg|contents]; [discriminate|].
  destruct (read_header _ _ _ _) as [st1|status1 st1] eqn:E; [|discriminate].
  apply read_header_Running in E as [Hacc ->].
  set (st0 := sprintf_buf _ _).
  destruct (header_run_frame w (d_name ent) (header_of (tail (getlines contents))) st0)
    as (Hposts & Hn & Hout & Herr & Hjson).
  pose proof (header_run_date w (d_name ent) (header_of (tail (getlines contents))) st0)
    as Hdate.
  pose proof (header_run_buf w (d_name ent) (header_of (tail (getlines contents))) st0)
    as Hbuf.
  subst st0. state_simpl. rewrite Hn.
  destruct (Nat.ltb_spec MAX_POSTS (S (nposts st))); [discriminate|].
  intros [= <-]. right. exists contents. state_simpl.
  split; [done|]. split; [done|]. split; [done|]. split; [lia|].
  rewrite Hbuf, Hposts, Hn, Hout, Herr.
  split; [|split; [|done]].
  - unfold record_text, header_lines. by rewrite <- !app_assoc.
  - f_equal. rewrite (Post_eta (post _)), Hdate, Hjson. done.
Qed.

(** A file with an accepted header is stored while the array has room. *)
Lemma visit_stored w ent st contents :
  is_hidden (d_name ent) = false ->
  d_fopen ent = fopen_ok contents ->
  Forall (fun l => line_accepted l = true) (header_lines contents) ->
  (nposts st < MAX_POSTS)%nat ->
  exists st', visit w ent st = Running st'.
Proof.
  intros Hh Ho Hacc Hn. unfold visit. rewrite Hh, Ho.
  rewrite read_header_accepted by done.
  set (st0 := sprintf_buf _ _).
  destruct (header_run_frame w (d_name ent) (header_of (tail (getlines contents))) st0)
    as (_ & Hn' & _).
  subst st0. state_simpl. rewrite Hn'.
  destruct (Nat.ltb_spec MAX_POSTS (S (nposts st))); [lia|eauto].
Qed.

(** The outer loop. *)
Lemma readdir_loop_app w ents1 ents2 st :
  readdir_loop w (ents1 ++ ents2) st
  = match readdir_loop w ents1 st with
    | Running st' => readdir_loop w ents2 st'
    | Returned status st' => Returned status st'
    end.
Proof.
  revert st. induction ents1 as [|e ents1 IH]; intros st; simpl; [done|].
  destruct (visit w e st); [apply IH | done].
Qed.

Lemma readdir_loop_Returned w ents st status st' :
  readdir_loop w ents st = Returned status st' ->
  status = 1 /\ stdout st' = stdout st.
Proof.
  revert st. induction ents as [|e ents IH]; intros st; simpl; [discriminate|].
  destruct (visit w e st) as [st1|status1 st1] eqn:E.
  - intros H. destruct (IH _ H) as [-> ->]. split; [done|].
    apply visit_Running in E as [[_ ->]|(c & _ & _ & _ & _ & _ & _ & _ & -> & _)]; done.
  - intros [= <- <-]. by apply visit_Returned in E.
Qed.

Lemma readdir_loop_Running_streams w ents st st' :
  readdir_loop w ents st = Running st' ->
  stdout st' = stdout st /\ stderr st' = stderr st.
Proof.
  revert st. induction ents as [|e ents IH]; intros st; simpl.
  - by intros [= <-].
  - destruct (visit w e st) as [st1|status1 st1] eqn:E; [|discriminate].
    intros H. destruct (IH _ H) as [-> ->].
    apply visit_Running in E as [[_ ->]|(c & _ & _ & _ & _ & _ & _ & _ & -> & ->)]; done.
Qed.

Lemma visit_rejected w ent st contents ok bad rest :
  is_hidden (d_name ent) = false ->
  d_fopen ent = fopen_ok contents ->
  header_lines contents = ok ++ bad :: rest ->
  Forall (fun l => line_accepted l = true) ok ->
  line_accepted bad = false ->
  exists st', visit w ent st = Returned 1 st'
    /\ stdout st' = stdout st
    /\ stderr st' = stderr st ++ line_diagnostic (d_name ent) bad.
Proof.
  intros Hh Ho Hlines Hok Hbad. unfold visit. rewrite Hh, Ho.
  set (st0 := sprintf_buf _ _).
  destruct (read_header_rejected w (d_name ent) (tail (getlines contents))
              ok bad rest st0 Hlines Hok Hbad) as (st' & -> & Hout & Herr).
  exists st'. split; [done|]. rewrite Hout, Herr.
  destruct (header_run_frame w (d_name ent) ok st0) as (_ & _ & _ & -> & _).
  done.
Qed.

(** The array keeps its size, and the count stays within it as long as
    the loop runs. *)
Lemma readdir_loop_posts w ents st st' :
  readdir_loop w ents st = Running st' ->
  length (posts st) = MAX_POSTS -> (nposts st <= MAX_POSTS)%nat ->
  length (posts st') = MAX_POSTS /\ (nposts st' <= MAX_POSTS)%nat.
Proof.
  revert st. induction ents as [|e ents IH]; intros st; simpl.
  - by intros [= <-].
  - destruct (visit w e st) as [st1|status1 st1] eqn:E; [|discriminate].
    intros H Hlen Hn. apply (IH _ H).
    + apply visit_Running in E as [[_ ->]|(c & _ & _ & _ & _ & _ & -> & _)];
        [done|]. by rewrite length_insert.
    + apply visit_Running in E as [[_ ->]|(c & _ & _ & _ & ? & _ & _ & -> & _)];
        [done|lia].
Qed.

(** ** The whole program *)

Lemma main_Returned qsort w ents status st :
  opendir_posts w = inr ents ->
  readdir_loop w ents initial = Returned status st ->
  main qsort w = (1, st) /\ stdout st = [].
Proof.
  intros Hd Hl. unfold main. rewrite Hd, Hl.
  by apply readdir_loop_Returned in Hl as [-> ->].
Qed.

(** A status other than 0 comes with an empty standard output. *)
Lemma main_failure_silent qsort w :
  exit_status (main qsort w) ≠ 0 -> standard_output (main qsort w) = [].
Proof.
  unfold main, exit_status, standard_output.
  destruct (opendir_posts w) as [msg|ents]; [done|].
  destruct (readdir_loop w ents initial) as [st|status st] eqn:E; [done|].
  intros _. simpl. by apply readdir_loop_Returned in E as [_ ->].
Qed.

(** The run that reaches a line the inner loop does not accept: the
    entries [before] were gone through, the header lines [ok] of [ent]
    were accepted, [bad] is not. *)
Lemma main_rejected qsort w before ent after contents ok bad rest st :
  opendir_posts w = inr (before ++ ent :: after) ->
  readdir_loop w before initial = Running st ->
  is_hidden (d_name ent) = false ->
  d_fopen ent = fopen_ok contents ->
  header_lines contents = ok ++ bad :: rest ->
  Forall (fun l => line_accepted l = true) ok ->
  line_accepted bad = false ->
  exit_status (main qsort w) = 1
  /\ standard_error (main qsort w) = line_diagnostic (d_name ent) bad
  /\ standard_output (main qsort w) = [].
Proof.
  intros Hd Hb Hh Ho Hlines Hok Hbad.
  destruct (visit_rejected w ent st contents ok bad rest)
    as (st' & Hv & Hout & Herr); try done.
  destruct (readdir_loop_Running_streams _ _ _ _ Hb) as [Hout0 Herr0].
  destruct (main_Returned qsort w (before ++ ent :: after) 1 st' Hd) as [-> Hs].
  - rewrite readdir_loop_app, Hb. simpl. by rewrite Hv.
  - unfold exit_status, standard_error, standard_output. simpl.
    rewrite Herr, Herr0, Hs. done.
Qed.

(** ** The example [qsort] meets both contracts *)

Lemma insert_sorted_Permutation cmp p l : insert_sorted cmp p l ≡ₚ p :: l.
Proof.
  induction l as [|q l IH]; simpl; [done|].
  destruct (0 <? cmp q p); [done|]. rewrite IH. apply Permutation_swap.
Qed.

Lemma sorted_prefix_Permutation cmp done todo :
  sorted_prefix cmp done todo ≡ₚ done ++ todo.
Proof.
  revert done. induction todo as [|p todo IH]; intros done; simpl.
  - by rewrite app_nil_r.
  - rewrite IH, insert_sorted_Permutation. simpl. apply Permutation_middle.
Qed.

Lemma insertion_qsort_permutes : permutes insertion_qsort.
Proof. intros cmp l. apply sorted_prefix_Permutation. Qed.

Lemma insert_sorted_tied cmp p l :
  (forall q, q ∈ l -> cmp q p = 0) -> insert_sorted cmp p l = l ++ [p].
Proof.
  induction l as [|q l IH]; intros H; simpl; [done|].
  rewrite (H q) by left. simpl. rewrite IH; [done|].
  intros q' Hq'. apply H. by right.
Qed.

Lemma sorted_prefix_tied cmp done todo :
  (forall a b, a ∈ done ++ todo -> b ∈ done ++ todo -> cmp a b = 0) ->
  sorted_prefix cmp done todo = done ++ todo.
Proof.
  revert done. induction todo as [|p todo IH]; intros done H; simpl.
  - by rewrite app_nil_r.
  - rewrite insert_sorted_tied
      by (intros q Hq; apply H; rewrite elem_of_app, ?elem_of_cons; auto).
    rewrite IH; [by rewrite <- app_assoc|].
    intros a b. rewrite <- !app_assoc. simpl. apply H.
Qed.

Lemma insertion_qsort_keeps_ties : keeps_ties insertion_qsort.
Proof. intros cmp l H. by apply sorted_prefix_tied. Qed.

(** ** The comparison function *)

Lemma cmp_posts_0 lhs rhs : cmp_posts lhs rhs = 0.
Proof. unfold cmp_posts. by rewrite Z.sub_diag. Qed.

Lemma keeps_ties_cmp_posts qsort l : keeps_ties qsort -> qsort cmp_posts l = l.
Proof. intros H. apply H. intros a b _ _. apply cmp_posts_0. Qed.

(** ** The diagnostics and the length check of the inner loop *)

Lemma line_diagnostic_missing_colon name line :
  strchr line ":" = None ->
  line_diagnostic name line
  = c_str name ++ lit ": missing colon in line:" ++ [LF; TAB] ++ c_str line.
Proof. unfold line_diagnostic. by intros ->. Qed.

Lemma line_diagnostic_malformed_date name line :
  is_date_line line = true ->
  line_diagnostic name line
  = c_str name ++ lit ": malformed date line:" ++ [LF; TAB] ++ c_str line.
Proof.
  unfold line_diagnostic, is_date_line.
  by destruct (strchr line ":").
Qed.

Lemma line_accepted_no_colon line :
  strchr line ":" = None -> line_accepted line = false.
Proof. unfold line_accepted. by intros ->. Qed.

Lemma line_accepted_date line :
  is_date_line line = true ->
  line_accepted line = (length line =? 17)%nat.
Proof.
  unfold line_accepted. intros H. rewrite H.
  unfold is_date_line in H. destruct (strchr line ":"); [|discriminate].
  change date_line_len with 17.
  destruct (Nat.eqb_spec (length line) 17) as [->|Hn]; [done|].
  apply Z.eqb_neq. lia.
Qed.

(** The example runs stay within the two arrays. *)
Lemma examples_within_bounds :
  memory_faults (main insertion_qsort older_first) = []
  /\ memory_faults (main insertion_qsort with_draft) = []
  /\ memory_faults (main insertion_qsort with_short_date) = []
  /\ memory_faults (main insertion_qsort hidden_only) = [].
Proof. repeat split; run. Qed.

(** ** C9: a directory with hidden entries only *)

Lemma readdir_loop_hidden w ents st :
  Forall (fun e => is_hidden (d_name e) = true) ents ->
  readdir_loop w ents st = Running st.
Proof.
  induction 1 as [|e ents He _ IH]; simpl; [done|].
  by rewrite visit_hidden.
Qed.

(** C9.  When every entry of the directory has a name that begins with a
    dot, the run succeeds (status 0) and the standard output is exactly
    two lines, an opening bracket and a closing bracket: the empty JSON
    array.  Nothing is written to the standard error. *)
Theorem hidden_entries_only_empty_array qsort w ents :
  opendir_posts w = inr ents ->
  Forall (fun e => exists rest, d_name e = "."%char :: rest) ents ->
  exit_status (main qsort w) = 0
  /\ standard_output (main qsort w) = lit "[" ++ [LF] ++ lit "]" ++ [LF]
  /\ standard_error (main qsort w) = [].
Proof.
  intros Hd Hdot. unfold main. rewrite Hd, readdir_loop_hidden; [done|].
  eapply Forall_impl; [exact Hdot|]. by intros e [rest ->].
Qed.

Lemma hidden_entries_only_empty_array_witness :
  exit_status (main insertion_qsort hidden_only) = 0
  /\ standard_output (main insertion_qsort hidden_only) = lit "[" ++ [LF] ++ lit "]" ++ [LF]
  /\ standard_error (main insertion_qsort hidden_only) = [].
Proof.
  apply (hidden_entries_only_empty_array insertion_qsort hidden_only
           [ {| d_name := lit "."; d_fopen := fopen_ok [] |};
             {| d_name := lit ".."; d_fopen := fopen_ok [] |};
             text_file ".gitkeep" [] ]).
  - run.
  - repeat constructor; eexists; reflexivity.
Defined.

(** ** C7: a header line without a colon *)

(** C7.  When the run reaches a header line [bad] that contains no colon
    (the entries before its file were gone through, the header lines
    before it were accepted), the run ends with status 1, the standard
    error holds the diagnostic naming the file and the line, and the
    standard output is empty.  In every run, a non-zero status comes with
    an empty standard output, and anything on the standard output means
    that the loop over the directory has gone through all the entries. *)
Theorem missing_colon_fatal_no_output qsort :
  (forall w before ent after contents ok bad rest st,
     opendir_posts w = inr (before ++ ent :: after) ->
     readdir_loop w before initial = Running st ->
     is_hidden (d_name ent) = false ->
     d_fopen ent = fopen_ok contents ->
     header_lines contents = ok ++ bad :: rest ->
     Forall (fun l => line_accepted l = true) ok ->
     strchr bad ":" = None ->
     exit_status (main qsort w) = 1
     /\ standard_error (main qsort w)
        = c_str (d_name ent) ++ lit ": missing colon in line:" ++ [LF; TAB]
          ++ c_str bad
     /\ standard_output (main qsort w) = [])
  /\ (forall w, exit_status (main qsort w) ≠ 0 -> standard_output (main qsort w) = [])
  /\ (forall w, standard_output (main qsort w) ≠ [] ->
        exists ents st, opendir_posts w = inr ents
                        /\ readdir_loop w ents initial = Running st).
Proof.
  split; [|split].
  - intros w before ent after contents ok bad rest st Hd Hb Hh Ho Hl Hok Hbad.
    rewrite <- (line_diagnostic_missing_colon _ _ Hbad).
    eapply main_rejected; eauto using line_accepted_no_colon.
  - intros w. apply main_failure_silent.
  - intros w. unfold main, standard_output.
    destruct (opendir_posts w) as [msg|ents]; [done|].
    destruct (readdir_loop w ents initial) as [st|status st] eqn:E; [eauto|].
    apply readdir_loop_Returned in E as [_ E]. simpl. by rewrite E.
Qed.

Lemma missing_colon_fatal_no_output_witness :
  exit_status (main insertion_qsort with_draft) = 1
  /\ standard_error (main insertion_qsort with_draft)
     = lit "draft.md: missing colon in line:" ++ [LF; TAB] ++ lit "to be written" ++ [LF]
  /\ standard_output (main insertion_qsort with_draft) = [].
Proof.
  refine (proj1 (missing_colon_fatal_no_output insertion_qsort)
            with_draft
            [christmas] no_colon [spring] (contents_of no_colon)
            [lit "title: Draft" ++ [LF]] (lit "to be written" ++ [LF])
            [] (state_of (readdir_loop with_draft [christmas] initial))
            _ _ _ _ _ _ _);
    first [run | run_lines].
Defined.

(** ** C3, C4: the date branch *)

(** [strncmp] compares the first [n] bytes of the two C strings. *)
Lemma strncmp_0 s1 s2 n :
  strncmp s1 s2 n = 0 <-> take n (c_str s1) = take n (c_str s2).
Proof.
  revert s1 s2. induction n as [|n IH]; intros s1 s2; simpl; [done|].
  destruct s1 as [|c1 s1], s2 as [|c2 s2]; simpl.
  - done.
  - destruct (Ascii.eqb_spec NUL c2) as [<-|H].
    + by rewrite Ascii.eqb_refl.
    + rewrite eqb_NUL_false by congruence; simpl.
      split; [|done]. intros E. exfalso. apply H, uchar_inj.
      change (uchar NUL) with 0 in *. lia.
  - destruct (Ascii.eqb_spec c1 NUL) as [->|H]; simpl; [done|].
    split; [|done]. intros E. exfalso. apply H, uchar_inj.
    change (uchar NUL) with 0 in *. lia.
  - destruct (Ascii.eqb_spec c1 c2) as [->|H].
    + destruct (Ascii.eqb_spec c2 NUL); [done|]. simpl.
      rewrite IH. split; [congruence|]. by intros [= ->].
    + split.
      * intros E. exfalso. apply H, uchar_inj. lia.
      * destruct (Ascii.eqb_spec c1 NUL) as [->|H1];
          destruct (Ascii.eqb_spec c2 NUL) as [->|H2]; simpl; try done.
        intros [= ? _]. done.
Qed.

Lemma take_c_str n s : NUL ∉ take n s -> take n (c_str s) = take n s.
Proof.
  revert s. induction n as [|n IH]; intros [|c s]; simpl; try done.
  rewrite not_elem_of_cons. intros [Hc Hs].
  rewrite eqb_NUL_false by congruence. simpl. by rewrite IH.
Qed.

(** The date branch is taken when the key, the bytes before the colon,
    is a prefix of the literal: the literal itself, each of its proper
    prefixes, and the empty key. *)
Lemma is_date_line_key line colon :
  strchr line ":" = Some colon ->
  is_date_line line = true <-> take colon line `prefix_of` lit "date".
Proof.
  intros Hc. unfold is_date_line. rewrite Hc, Z.eqb_eq, strncmp_0.
  apply strchr_Some in Hc as (Hk & _ & H0); [|done].
  rewrite (take_c_str _ line H0).
  change (c_str (lit "date")) with (lit "date").
  assert (length (take colon line) = colon) as Hlen.
  { rewrite length_take. apply lookup_lt_Some in Hk. lia. }
  split.
  - intros ->. exists (drop colon (lit "date")). by rewrite take_drop.
  - intros [k E]. rewrite E. by rewrite take_app_length'.
Qed.

(** C3 (as stated, with 18 bytes) fails: the line [date: 2024-01-15] with
    its newline takes the date branch and has 17 bytes, not 18; the loop
    body accepts it and the run over a file with that header succeeds. *)
Lemma date_line_of_17_bytes_accepted :
  is_date_line january_line = true
  /\ length january_line ≠ 18%nat
  /\ (exists st', header_line with_january (lit "january.md") january_line initial
                  = Running st')
  /\ exit_status (main insertion_qsort with_january) = 0
  /\ standard_error (main insertion_qsort with_january) = [].
Proof.
  split; [run|]. split; [by vm_compute|].
  split; [eexists; run|]. split; run.
Qed.

(** C3 (amended).  For every header line on which the date branch is
    taken, the loop body returns status 1 with the malformed-date
    diagnostic (the name of the file, then the line) exactly when the
    length of the line, newline included, differs from 17, the length of
    the template; a line of 17 bytes is accepted whatever its bytes, and
    its sort key is read from the ten bytes after the colon and the
    space.  A run that reaches such a line of another length ends with
    status 1, that diagnostic and an empty standard output. *)
Theorem date_line_length_is_17 :
  (forall w name line st,
     is_date_line line = true ->
     (length line ≠ 17%nat ->
        exists st', header_line w name line st = Returned 1 st'
          /\ stderr st' = stderr st ++ c_str name ++ lit ": malformed date line:"
                          ++ [LF; TAB] ++ c_str line
          /\ stdout st' = stdout st)
     /\ (length line = 17%nat ->
        exists st', header_line w name line st = Running st'
          /\ date (post st') = line_date line))
  /\ (forall qsort w before ent after contents ok line rest st,
        opendir_posts w = inr (before ++ ent :: after) ->
        readdir_loop w before initial = Running st ->
        is_hidden (d_name ent) = false ->
        d_fopen ent = fopen_ok contents ->
        header_lines contents = ok ++ line :: rest ->
        Forall (fun l => line_accepted l = true) ok ->
        is_date_line line = true ->
        length line ≠ 17%nat ->
        exit_status (main qsort w) = 1
        /\ standard_error (main qsort w)
           = c_str (d_name ent) ++ lit ": malformed date line:" ++ [LF; TAB]
             ++ c_str line
        /\ standard_output (main qsort w) = []).
Proof.
  split.
  - intros w name line st Hd. pose proof (line_accepted_date line Hd) as Ha. split.
    + intros Hn. apply Nat.eqb_neq in Hn. rewrite Hn in Ha.
      destruct (header_line_rejected w name line st Ha) as (st' & E & Ho & He).
      exists st'. by rewrite <- line_diagnostic_malformed_date.
    + intros Hn. apply Nat.eqb_eq in Hn. rewrite Hn in Ha.
      rewrite header_line_accepted by done. eexists. split; [done|].
      unfold header_step. by rewrite Hd.
  - intros qsort w before ent after contents ok line rest st Hd Hb Hh Ho Hl Hok Hdl Hn.
    rewrite <- (line_diagnostic_malformed_date _ _ Hdl).
    eapply main_rejected; eauto.
    rewrite line_accepted_date by done. by apply Nat.eqb_neq.
Qed.

Lemma date_line_length_is_17_witness :
  ((exists st', header_line with_january (lit "january.md") january_line initial
                = Running st'
                /\ date (post st') = line_date january_line))
  /\ (exit_status (main insertion_qsort with_short_date) = 1
      /\ standard_error (main insertion_qsort with_short_date)
         = lit "short.md: malformed date line:" ++ [LF; TAB]
           ++ lit "date: 2024-1-5" ++ [LF]
      /\ standard_output (main insertion_qsort with_short_date) = []).
Proof.
  split.
  - refine (proj2 (proj1 date_line_length_is_17 with_january (lit "january.md")
                     january_line initial _) _); run.
  - refine (proj2 date_line_length_is_17 insertion_qsort with_short_date
              [christmas] short_date [spring] (contents_of short_date)
              [lit "date: 2024-01-15" ++ [LF]] (lit "date: 2024-1-5" ++ [LF])
              [] (state_of (readdir_loop with_short_date [christmas] initial))
              _ _ _ _ _ _ _ _);
      first [run | by vm_compute | run_lines].
Defined.

(** C4 (the code at a failing input).  The key [dat] is not the string
    [date], yet the line takes the date branch: the run over a file with
    the header line [dat: x] ends with status 1 and the malformed-date
    diagnostic. *)
Theorem dat_key_takes_date_branch qsort :
  is_date_line (lit "dat: x" ++ [LF]) = true
  /\ exit_status (main qsort with_dat_key) = 1
  /\ standard_error (main qsort with_dat_key)
     = lit "a.md: malformed date line:" ++ [LF; TAB] ++ lit "dat: x" ++ [LF].
Proof. split; [run|]. split; run. Qed.

(** ** C10: several date lines in one header *)

(** C10.  Every line of a header on which the date branch is taken goes
    through the length check on its own: a run that reaches such a line
    of a length other than 17 ends with status 1 and the malformed-date
    diagnostic, whatever the lines before it ([ok]) and after it
    ([rest]) are, well-formed date lines included.  When the file is
    gone through, the record stored for it carries the sort key of the
    last line of the header on which the date branch was taken. *)
Theorem each_date_line_checked_last_one_kept :
  (forall qsort w before ent after contents ok bad rest st,
     opendir_posts w = inr (before ++ ent :: after) ->
     readdir_loop w before initial = Running st ->
     is_hidden (d_name ent) = false ->
     d_fopen ent = fopen_ok contents ->
     header_lines contents = ok ++ bad :: rest ->
     Forall (fun l => line_accepted l = true) ok ->
     is_date_line bad = true ->
     length bad ≠ 17%nat ->
     exit_status (main qsort w) = 1
     /\ standard_error (main qsort w)
        = c_str (d_name ent) ++ lit ": malformed date line:" ++ [LF; TAB]
          ++ c_str bad)
  /\ (forall w before ent contents st st' line,
        readdir_loop w before initial = Running st ->
        is_hidden (d_name ent) = false ->
        d_fopen ent = fopen_ok contents ->
        visit w ent st = Running st' ->
        last (filter (fun l => is_date_line l = true) (header_lines contents))
        = Some line ->
        exists p, posts st' !! nposts st = Some p /\ date p = line_date line).
Proof.
  split.
  - intros qsort w before ent after contents ok bad rest st Hd Hb Hh Ho Hl Hok Hdl Hn.
    rewrite <- (line_diagnostic_malformed_date _ _ Hdl).
    destruct (main_rejected qsort w before ent after contents ok bad rest st)
      as (? & ? & _); auto.
    rewrite line_accepted_date by done. by apply Nat.eqb_neq.
  - intros w before ent contents st st' line Hb Hh Ho Hv Hlast.
    destruct (readdir_loop_posts _ _ _ _ Hb) as [Hlen _]; [done | simpl; lia |].
    apply visit_Running in Hv as [[Hh' _]|(c & _ & Ho' & _ & Hn & _ & -> & _)];
      [congruence|].
    rewrite Ho in Ho'. injection Ho' as <-.
    eexists. split.
    + apply list_lookup_insert_eq. lia.
    + simpl. unfold record_date, last_date. by rewrite Hlast.
Qed.

Lemma each_date_line_checked_last_one_kept_witness :
  (exit_status (main insertion_qsort with_short_date) = 1
   /\ standard_error (main insertion_qsort with_short_date)
      = lit "short.md: malformed date line:" ++ [LF; TAB]
        ++ lit "date: 2024-1-5" ++ [LF])
  /\ (exists p, posts (state_of (visit with_two_dates two_dates initial)) !! O
                = Some p
                /\ date p = line_date (lit "date: 2024-02-01" ++ [LF])).
Proof.
  split.
  - refine (proj1 each_date_line_checked_last_one_kept insertion_qsort
              with_short_date [christmas] short_date [spring] (contents_of short_date)
              [lit "date: 2024-01-15" ++ [LF]] (lit "date: 2024-1-5" ++ [LF])
              [] (state_of (readdir_loop with_short_date [christmas] initial))
              _ _ _ _ _ _ _ _);
      first [run | by vm_compute | run_lines].
  - refine (proj2 each_date_line_checked_last_one_kept with_two_dates
              [] two_dates (contents_of two_dates) initial
              (state_of (visit with_two_dates two_dates initial))
              (lit "date: 2024-02-01" ++ [LF])
              _ _ _ _ _); run.
Defined.

(** ** C2: the sort key of a date *)

Lemma lor_add_low a b k :
  0 <= k -> 0 <= b < 2 ^ k -> Z.lor (a * 2 ^ k) b = a * 2 ^ k + b.
Proof.
  intros Hk Hb.
  assert (Z.land (a * 2 ^ k) b = 0) as Hland.
  { apply Z.bits_inj'. intros n Hn. rewrite Z.land_spec, Z.bits_0.
    destruct (Z.lt_ge_cases n k).
    - by rewrite Z.mul_pow2_bits_low.
    - rewrite <- (Z.mod_small b (2 ^ k)) by done.
      rewrite Z.mod_pow2_bits_high by lia. apply andb_false_r. }
  rewrite Z.add_nocarry_lxor by done. symmetry. by apply Z.lxor_lor.
Qed.

(** One more byte below the bytes packed so far. *)
Lemma lor_next_byte acc b n :
  0 <= n -> 0 <= b < 256 ->
  Z.lor (acc * 2 ^ (n + 8)) (b * 2 ^ n) = (acc * 256 + b) * 2 ^ n.
Proof.
  intros Hn Hb.
  assert (0 < 2 ^ n) by (apply Z.pow_pos_nonneg; lia).
  assert (2 ^ (n + 8) = 2 ^ n * 256) as E by (by rewrite Z.pow_add_r by lia).
  rewrite lor_add_low; [rewrite E; lia | lia | rewrite E; nia].
Qed.

Lemma shl64_mul c n : 0 <= n <= 56 -> shl64 c n = uchar c * 2 ^ n.
Proof.
  intros Hn. unfold shl64, to_uint64. rewrite Z.shiftl_mul_pow2 by lia.
  pose proof (uchar_range c).
  apply Z.mod_small. split; [apply Z.mul_nonneg_nonneg; lia|].
  assert (2 ^ n <= 2 ^ 56) by (apply Z.pow_le_mono_r; lia).
  change (2 ^ 64) with (256 * 2 ^ 56). nia.
Qed.

Lemma to_int64_small z : 0 <= z < 2 ^ 63 -> to_int64 z = z.
Proof. intros H. unfold to_int64. rewrite Z.mod_small; lia. Qed.

(** The shifts and ors of lines 81-84 pack the eight bytes most
    significant first. *)
Lemma date_of_big_endian s : date_of s = to_int64 (big_endian (packed s)).
Proof.
  unfold date_of, packed.
  destruct s as [[[[y0 y1] y2] y3] h1 [m0 m1] h2 [d0 d1]]. simpl.
  f_equal. rewrite !shl64_mul by lia.
  pose proof (uchar_range y0). pose proof (uchar_range y1).
  pose proof (uchar_range y2). pose proof (uchar_range y3).
  pose proof (uchar_range m0). pose proof (uchar_range m1).
  pose proof (uchar_range d0). pose proof (uchar_range d1).
  unfold big_endian. simpl.
  change (2 ^ 56) with (2 ^ (48 + 8)). rewrite lor_next_byte by lia.
  change (2 ^ 48) with (2 ^ (40 + 8)). rewrite lor_next_byte by lia.
  change (2 ^ 40) with (2 ^ (32 + 8)). rewrite lor_next_byte by lia.
  change (2 ^ 32) with (2 ^ (24 + 8)). rewrite lor_next_byte by lia.
  change (2 ^ 24) with (2 ^ (16 + 8)). rewrite lor_next_byte by lia.
  change (2 ^ 16) with (2 ^ (8 + 8)). rewrite lor_next_byte by lia.
  rewrite <- (Z.mul_1_r (uchar d1)) at 1.
  change 1 with (2 ^ 0) at 1. change (2 ^ 8) with (2 ^ (0 + 8)).
  rewrite lor_next_byte by lia. lia.
Qed.

(** On decimal digits the keys are ordered as the dates. *)
Lemma date_of_order s1 s2 :
  all_digits s1 = true -> all_digits s2 = true ->
  (date_of s1 < date_of s2 <-> earlier s1 s2).
Proof.
  rewrite !date_of_big_endian. unfold all_digits, earlier, year, month, day, packed.
  destruct s1 as [[[[a0 a1] a2] a3] ? [a4 a5] ? [a6 a7]].
  destruct s2 as [[[[b0 b1] b2] b3] ? [b4 b5] ? [b6 b7]]. simpl.
  unfold is_digit, digit, big_endian. simpl.
  rewrite !andb_true_iff, !Z.leb_le.
  intros (?&?&?&?&?&?&?&?&_) (?&?&?&?&?&?&?&?&_).
  rewrite !to_int64_small by lia.
  lia.
Qed.

(** C2.  The loop body accepts the line [date: 2024-01-15] and sets the
    sort key of the record to the bytes of [20240115] read as an 8-byte
    big-endian integer; that key lies strictly between the keys of
    [2023-12-31] and [2024-02-01].  In general the key is the eight year,
    month and day bytes packed most significant first, and for dates
    written with decimal digits the order of the keys is the order of
    the calendar dates. *)
Theorem date_key_big_endian_ordered :
  (forall w name st,
     exists st', header_line w name january_line st = Running st'
                 /\ date (post st') = big_endian (lit "20240115"))
  /\ line_date (lit "date: 2023-12-31" ++ [LF]) < line_date january_line
     < line_date (lit "date: 2024-02-01" ++ [LF])
  /\ (forall s, date_of s = to_int64 (big_endian (packed s)))
  /\ (forall s1 s2,
        all_digits s1 = true -> all_digits s2 = true ->
        (date_of s1 < date_of s2 <-> earlier s1 s2)).
Proof.
  split; [|split; [|split]].
  - intros w name st. rewrite header_line_accepted by run.
    eexists. split; [done|]. unfold header_step.
    change (is_date_line january_line) with true. simpl. run.
  - by vm_compute.
  - apply date_of_big_endian.
  - apply date_of_order.
Qed.

Lemma date_key_big_endian_ordered_witness :
  date_of (read_DateString (lit "2023-12-31"))
  < date_of (read_DateString (lit "2024-01-15"))
  <-> earlier (read_DateString (lit "2023-12-31"))
              (read_DateString (lit "2024-01-15")).
Proof.
  apply (proj2 (proj2 (proj2 date_key_big_endian_ordered))
           (read_DateString (lit "2023-12-31"))
           (read_DateString (lit "2024-01-15"))); reflexivity.
Defined.

(** ** C8: more than [MAX_POSTS] entries *)

(** The record that finds the array full is stored past its end before
    the count is compared with the maximum. *)
Lemma visit_array_full w ent st contents :
  is_hidden (d_name ent) = false ->
  d_fopen ent = fopen_ok contents ->
  Forall (fun l => line_accepted l = true) (header_lines contents) ->
  nposts st = MAX_POSTS ->
  exists st', visit w ent st = Returned 1 st'
    /\ posts_out_of_bounds MAX_POSTS ∈ faults st'
    /\ stdout st' = stdout st
    /\ stderr st' = stderr st ++ lit "too many posts (101)" ++ [LF].
Proof.
  intros Hh Ho Hacc Hn. unfold visit. rewrite Hh, Ho.
  rewrite read_header_accepted by done.
  set (st0 := sprintf_buf _ _).
  destruct (header_run_frame w (d_name ent) (header_of (tail (getlines contents))) st0)
    as (_ & Hn' & Hout & Herr & _).
  subst st0. state_simpl. rewrite Hn'. rewrite Hn in Hn', Hout, Herr |- *.
  change (MAX_POSTS <? S MAX_POSTS)%nat with true. cbv iota.
  eexists. split; [done|]. state_simpl. rewrite Hn', Herr, Hout.
  split; [|done].
  rewrite elem_of_app. right. change (MAX_POSTS <=? MAX_POSTS)%nat with true.
  apply list_elem_of_here.
Qed.

(** The run that reaches one more visible entry with an accepted header
    after [MAX_POSTS] records have been stored. *)
Lemma main_array_full qsort w before ent after contents st :
  opendir_posts w = inr (before ++ ent :: after) ->
  readdir_loop w before initial = Running st ->
  nposts st = MAX_POSTS ->
  is_hidden (d_name ent) = false ->
  d_fopen ent = fopen_ok contents ->
  Forall (fun l => line_accepted l = true) (header_lines contents) ->
  exit_status (main qsort w) = 1
  /\ standard_error (main qsort w) = lit "too many posts (101)" ++ [LF]
  /\ standard_output (main qsort w) = []
  /\ posts_out_of_bounds MAX_POSTS ∈ memory_faults (main qsort w).
Proof.
  intros Hd Hb Hn Hh Ho Hacc.
  destruct (visit_array_full w ent st contents Hh Ho Hacc Hn)
    as (st' & Hv & Hf & Hout & Herr).
  destruct (readdir_loop_Running_streams _ _ _ _ Hb) as [Hout0 Herr0].
  destruct (main_Returned qsort w (before ++ ent :: after) 1 st' Hd) as [-> Hs].
  - rewrite readdir_loop_app, Hb. simpl. by rewrite Hv.
  - unfold exit_status, standard_error, standard_output, memory_faults. simpl.
    rewrite Herr, Herr0, Hs. done.
Qed.

(** C8 (the code at a failing input).  The directory holds 101 visible
    post files.  The run ends with status 1, the diagnostic on the
    standard error and an empty standard output, but only after record
    number 101 has been stored at index 100, one past the last element
    of the array of [MAX_POSTS] records: the store comes before the
    comparison of the count with the maximum. *)
Theorem record_101_stored_before_check qsort :
  exit_status (main qsort crowded) = 1
  /\ standard_error (main qsort crowded) = lit "too many posts (101)" ++ [LF]
  /\ standard_output (main qsort crowded) = []
  /\ memory_faults (main qsort crowded) = [posts_out_of_bounds 100]
  /\ length (posts initial) = 100%nat.
Proof. repeat split; run. Qed.

(** ** The records in the buffer and on the standard output *)

Lemma holds_text_at b p text : holds b p text -> text_at b p = text.
Proof.
  intros (off & rest & -> & E & H0). simpl. rewrite E. by apply c_str_app_NUL.
Qed.

Lemma holds_app b more p text : holds b p text -> holds (b ++ more) p text.
Proof.
  intros (off & rest & -> & E & H0). exists off, (rest ++ more).
  split; [done|]. split; [|done].
  assert (off <= length b)%nat.
  { destruct (Nat.le_gt_cases off (length b)) as [|Hgt]; [done|].
    rewrite drop_ge in E by lia. by destruct text. }
  rewrite drop_app_le by done. rewrite E. by rewrite <- app_assoc.
Qed.

Lemma holds_new b text :
  NUL ∉ text -> holds (b ++ text ++ [NUL]) (Buffer (length b)) text.
Proof.
  intros H0. exists (length b), []. split; [done|]. split; [|done].
  by rewrite drop_app_length.
Qed.

(** No conversion of the two formats writes a NUL. *)
Ltac no_NUL :=
  repeat first
    [ apply c_str_no_NUL
    | apply printf_prec_s_no_NUL
    | rewrite elem_of_app
    | rewrite elem_of_cons
    | rewrite elem_of_nil ];
  intuition (try discriminate).

Lemma format_path_no_NUL name : NUL ∉ format_path name.
Proof.
  unfold format_path, quoted. cbv [lit list_ascii_of_string].
  pose proof (c_str_no_NUL name). no_NUL.
Qed.

Lemma format_field_no_NUL key_len line prec value :
  NUL ∉ format_field key_len line prec value.
Proof.
  unfold format_field, quoted. cbv [lit list_ascii_of_string].
  pose proof (printf_prec_s_no_NUL key_len line).
  pose proof (printf_prec_s_no_NUL prec value). no_NUL.
Qed.

Lemma header_text_no_NUL w name line : NUL ∉ header_text w name line.
Proof.
  unfold header_text. destruct (strchr line ":").
  - apply format_field_no_NUL.
  - apply not_elem_of_nil.
Qed.

Lemma record_text_no_NUL w name contents : NUL ∉ record_text w name contents.
Proof.
  unfold record_text. rewrite !elem_of_app.
  intros [H|[H|H]].
  - by apply format_path_no_NUL in H.
  - induction (header_lines contents) as [|l ls IH]; simpl in H.
    + by apply not_elem_of_nil in H.
    + apply elem_of_app in H as [H|H]; [|done].
      by apply header_text_no_NUL in H.
  - cbv [lit list_ascii_of_string] in H. apply list_elem_of_singleton in H.
    discriminate.
Qed.

Lemma visit_rendered w ent st st' stored :
  visit w ent st = Running st' ->
  length (posts st) = MAX_POSTS ->
  rendered w st stored ->
  rendered w st' (stored ++ visible [ent]).
Proof.
  intros Hv Hlen Hr. unfold visible.
  apply visit_Running in Hv
    as [[Hh ->]|(c & Hh & Ho & _ & Hn & Hbuf & Hposts & Hn' & _)].
  - rewrite filter_cons_False by (by rewrite Hh). by rewrite app_nil_r.
  - rewrite filter_cons_True by done. rewrite filter_nil.
    unfold rendered. rewrite Hn', Hposts, Hbuf.
    erewrite take_S_r by (apply list_lookup_insert_eq; lia).
    rewrite take_insert_ge by done.
    apply Forall2_app.
    + eapply Forall2_impl; [exact Hr|]. intros p e. apply holds_app.
    + constructor; [|constructor]. cbn [json].
      assert (entry_text w ent = record_text w (d_name ent) c) as ->
        by (unfold entry_text, contents_of; by rewrite Ho).
      apply holds_new, record_text_no_NUL.
Qed.

Lemma readdir_loop_rendered w ents st st' stored :
  readdir_loop w ents st = Running st' ->
  length (posts st) = MAX_POSTS ->
  rendered w st stored ->
  rendered w st' (stored ++ visible ents).
Proof.
  revert st stored. induction ents as [|e ents IH]; intros st stored; simpl.
  - intros [= <-] _ Hr. by rewrite app_nil_r.
  - destruct (visit w e st) as [st1|status1 st1] eqn:E; [|discriminate].
    intros Hl Hlen Hr.
    change (e :: ents) with ([e] ++ ents). unfold visible.
    rewrite filter_app, app_assoc. apply (IH st1); [done| |].
    + apply visit_Running in E as [[_ ->]|(c & _ & _ & _ & _ & _ & -> & _)];
        [done|]. by rewrite length_insert.
    + by apply (visit_rendered w e st st1).
Qed.

Lemma holds_puts_text b p text : holds b p text -> puts_text b p = text ++ [LF].
Proof.
  intros H. pose proof (holds_text_at _ _ _ H) as E.
  destruct H as (off & rest & -> & _). simpl in *. by rewrite E.
Qed.

(** Lines 99-101 print the first [nposts] records in the order of the
    array. *)
Lemma print_posts_upto st n :
  (n <= length (posts st))%nat ->
  let st' := foldl (fun st i =>
                      match posts st !! i with
                      | Some p => puts (json p) st
                      | None => st
                      end) st (seq 0 n) in
  buf st' = buf st /\ posts st' = posts st /\ stderr st' = stderr st
  /\ stdout st'
     = stdout st ++ concat (map (fun p => puts_text (buf st) (json p))
                              (take n (posts st))).
Proof.
  induction n as [|n IH]; intros Hn; cbv zeta.
  - simpl. by rewrite app_nil_r.
  - rewrite seq_S, foldl_snoc.
    destruct IH as (Hbuf & Hposts & Herr & Hout); [lia|].
    rewrite Hposts. cbn [Nat.add].
    destruct (lookup_lt_is_Some_2 (posts st) n) as [p Hp]; [lia|].
    rewrite Hp, (take_S_r _ _ _ Hp), map_app, concat_app. cbn [map concat].
    rewrite app_nil_r, app_assoc, <- Hout.
    destruct (json p) as [|off]; cbn [puts puts_text].
    + by rewrite app_nil_r.
    + state_simpl. by rewrite Hbuf.
Qed.

Lemma print_posts_stdout st :
  (nposts st <= length (posts st))%nat ->
  stderr (print_posts st) = stderr st
  /\ stdout (print_posts st)
     = stdout st ++ concat (map (fun p => puts_text (buf st) (json p))
                              (take (nposts st) (posts st))).
Proof.
  intros Hn. destruct (print_posts_upto st (nposts st) Hn) as (_ & _ & ? & ?).
  done.
Qed.

(** The standard output of a run that went through the directory: the
    records in the order in which [qsort] left them. *)
Lemma main_Running qsort w ents st :
  opendir_posts w = inr ents ->
  readdir_loop w ents initial = Running st ->
  length (qsort cmp_posts (take (nposts st) (posts st))) = nposts st ->
  exit_status (main qsort w) = 0
  /\ standard_error (main qsort w) = []
  /\ standard_output (main qsort w)
     = lit "[" ++ [LF]
       ++ concat (map (fun p => puts_text (buf st) (json p))
                    (qsort cmp_posts (take (nposts st) (posts st))))
       ++ lit "]" ++ [LF].
Proof.
  intros Hd Hl Hlen. unfold main. rewrite Hd, Hl.
  unfold exit_status, standard_error, standard_output. cbn [fst snd].
  destruct (readdir_loop_Running_streams _ _ _ _ Hl) as [Hout Herr].
  set (sorted := qsort cmp_posts (take (nposts st) (posts st))) in *.
  set (st1 := print_out (lit "[" ++ [LF]) (set_posts (sorted ++ _) st)).
  destruct (print_posts_stdout st1) as [Herr1 Hout1].
  { subst st1. state_simpl. rewrite length_app. lia. }
  state_simpl. rewrite Herr1, Hout1. subst st1. state_simpl.
  rewrite Hout, Herr, take_app_length' by done.
  split; [done|]. split; [done|].
  change (stdout initial) with (@nil ascii). by rewrite app_nil_l, <- !app_assoc.
Qed.

Lemma main_success qsort w :
  exit_status (main qsort w) = 0 ->
  exists ents st,
    opendir_posts w = inr ents /\ readdir_loop w ents initial = Running st.
Proof.
  unfold main, exit_status.
  destruct (opendir_posts w) as [msg|ents]; [done|].
  destruct (readdir_loop w ents initial) as [st|status st] eqn:E; [eauto|].
  apply readdir_loop_Returned in E as [-> _]. done.
Qed.

Lemma rendered_initial w : rendered w initial [].
Proof. constructor. Qed.

Lemma rendered_texts w st ents :
  rendered w st ents ->
  map (fun p => puts_text (buf st) (json p)) (take (nposts st) (posts st))
  = map (fun e => entry_text w e ++ [LF]) ents.
Proof.
  unfold rendered. induction 1 as [|p e ps es H _ IH]; simpl; [done|].
  by rewrite IH, (holds_puts_text _ _ _ H).
Qed.

(** With a [qsort] that keeps ties in place, the records are printed in
    the order in which [readdir] returned the entries. *)
Lemma main_output_in_order qsort w ents :
  keeps_ties qsort ->
  opendir_posts w = inr ents ->
  exit_status (main qsort w) = 0 ->
  standard_output (main qsort w)
  = lit "[" ++ [LF]
    ++ concat (map (fun e => entry_text w e ++ [LF]) (visible ents))
    ++ lit "]" ++ [LF].
Proof.
  intros Hq Hd Hs. destruct (main_success _ _ Hs) as (ents' & st & Hd' & Hl).
  rewrite Hd in Hd'. injection Hd' as <-.
  destruct (readdir_loop_posts _ _ _ _ Hl) as [Hlen Hn]; [done | simpl; lia |].
  destruct (main_Running qsort w ents st Hd Hl) as (_ & _ & ->).
  - rewrite keeps_ties_cmp_posts by done. rewrite length_take. lia.
  - rewrite keeps_ties_cmp_posts by done.
    rewrite (rendered_texts w st (visible ents)); [done|].
    apply (readdir_loop_rendered w ents initial st []); [done..|].
    apply rendered_initial.
Qed.

(** With any [qsort] that permutes the array, the records are printed
    one per line in some order. *)
Lemma main_output_permuted qsort w ents :
  permutes qsort ->
  opendir_posts w = inr ents ->
  exit_status (main qsort w) = 0 ->
  exists texts,
    texts ≡ₚ map (entry_text w) (visible ents)
    /\ standard_output (main qsort w)
       = lit "[" ++ [LF] ++ concat (map (fun t => t ++ [LF]) texts)
         ++ lit "]" ++ [LF].
Proof.
  intros Hq Hd Hs. destruct (main_success _ _ Hs) as (ents' & st & Hd' & Hl).
  rewrite Hd in Hd'. injection Hd' as <-.
  destruct (readdir_loop_posts _ _ _ _ Hl) as [Hlen Hn]; [done | simpl; lia |].
  pose proof (readdir_loop_rendered w ents initial st [] Hl eq_refl
                (rendered_initial w)) as Hr. simpl in Hr.
  pose proof (Hq cmp_posts (take (nposts st) (posts st))) as Hperm.
  destruct (main_Running qsort w ents st Hd Hl) as (_ & _ & ->).
  - rewrite (Permutation_length Hperm), length_take. lia.
  - exists (map (fun p => text_at (buf st) (json p))
              (qsort cmp_posts (take (nposts st) (posts st)))).
    split.
    + rewrite Hperm. clear Hperm. unfold rendered in Hr.
      induction Hr as [|p e ps es H _ IH]; simpl; [done|].
      by rewrite IH, (holds_text_at _ _ _ H).
    + assert (Forall (fun p => exists t, holds (buf st) (json p) t)
                (qsort cmp_posts (take (nposts st) (posts st)))) as HF.
      { rewrite Hperm. clear Hperm. unfold rendered in Hr.
        induction Hr; constructor; eauto. }
      rewrite map_map.
      assert (map (fun p => puts_text (buf st) (json p))
                (qsort cmp_posts (take (nposts st) (posts st)))
              = map (fun p => text_at (buf st) (json p) ++ [LF])
                  (qsort cmp_posts (take (nposts st) (posts st)))) as ->; [|done].
      clear -HF. induction HF as [|p ps [t H] _ IH]; simpl; [done|].
      by rewrite IH, (holds_puts_text _ _ _ H), (holds_text_at _ _ _ H).
Qed.

(** ** C6: from the header of a file to its JSON object *)

Lemma absent_spec c s : absent c s = true <-> c ∉ s.
Proof.
  unfold absent. induction s as [|a s IH]; simpl.
  - split; [intros _; apply not_elem_of_nil | done].
  - rewrite andb_true_iff, IH, not_elem_of_cons, negb_true_iff, Ascii.eqb_neq.
    intuition congruence.
Qed.

Lemma well_formed_field_spec k v :
  well_formed_field (k, v) = true ->
  (":"%char ∉ k) /\ (NUL ∉ k) /\ (LF ∉ k) /\ (NUL ∉ v) /\ (LF ∉ v).
Proof.
  unfold well_formed_field. simpl. rewrite !andb_true_iff, !absent_spec. tauto.
Qed.

Lemma field_line_cons k v : field_line (k, v) = k ++ ":"%char :: " "%char :: v ++ [LF].
Proof. done. Qed.

(** The loop body renders a well-formed metadata line as its field. *)
Lemma header_text_field w name kv :
  well_formed_field kv = true ->
  header_text w name (field_line kv) = json_field kv.
Proof.
  destruct kv as [k v]. intros (Hc & Hk0 & _ & Hv0 & _)%well_formed_field_spec.
  rewrite field_line_cons. unfold header_text, json_field.
  rewrite strchr_app by done. unfold format_field. simpl fst. simpl snd.
  assert (NUL ∉ k ++ ":"%char :: " "%char :: v ++ [LF]) as Hline.
  { rewrite elem_of_app, !elem_of_cons, elem_of_app, elem_of_cons, elem_of_nil.
    intuition discriminate. }
  assert (printf_prec_s (Z.of_nat (length k))
            (k ++ ":"%char :: " "%char :: v ++ [LF]) = k) as ->.
  { unfold printf_prec_s. destruct (Z.ltb_spec (Z.of_nat (length k)) 0); [lia|].
    rewrite Nat2Z.id, c_str_id by done. by rewrite take_app_length. }
  assert (at_colon_2 w name (k ++ ":"%char :: " "%char :: v ++ [LF]) (length k)
          = v ++ [LF]) as ->.
  { unfold at_colon_2. rewrite length_app. simpl length.
    destruct (Nat.leb_spec (length k + 2) (length k + S (S (length (v ++ [LF])))));
      [|lia].
    rewrite drop_app_ge by lia.
    replace (length k + 2 - length k)%nat with 2%nat by lia. done. }
  assert (printf_prec_s
            (Z.of_nat (length (k ++ ":"%char :: " "%char :: v ++ [LF]))
             - Z.of_nat (length k) - 3) (v ++ [LF]) = v) as ->; [|done].
  unfold printf_prec_s. rewrite length_app. simpl length. rewrite length_app.
  simpl length.
  replace (Z.of_nat (length k + S (S (length v + 1))) - Z.of_nat (length k) - 3)
    with (Z.of_nat (length v)) by lia.
  destruct (Z.ltb_spec (Z.of_nat (length v)) 0); [lia|].
  rewrite Nat2Z.id, c_str_id.
  - by rewrite take_app_length.
  - rewrite elem_of_app, elem_of_cons, elem_of_nil. intuition discriminate.
Qed.

Lemma field_line_not_separator kv :
  well_formed_field kv = true -> strcmp (field_line kv) metadata_separator ≠ 0.
Proof.
  destruct kv as [k v]. intros (_ & Hk0 & _ & Hv0 & _)%well_formed_field_spec.
  rewrite strcmp_0, field_line_cons.
  change (c_str metadata_separator) with metadata_separator.
  rewrite c_str_id.
  - intros E.
    assert (":"%char ∉ metadata_separator) as Hsep by (by apply absent_spec).
    apply Hsep. rewrite <- E, elem_of_app, elem_of_cons. auto.
  - rewrite elem_of_app, !elem_of_cons, elem_of_app, elem_of_cons, elem_of_nil.
    intuition discriminate.
Qed.

Lemma getlines_fields fields trailer :
  Forall (fun kv => well_formed_field kv = true) fields ->
  getlines (concat (map field_line fields) ++ trailer)
  = map field_line fields ++ getlines trailer.
Proof.
  induction 1 as [|[k v] fields Hkv _ IH]; simpl; [done|].
  apply well_formed_field_spec in Hkv as (Hc & _ & Hk & _ & Hv).
  rewrite <- IH. rewrite field_line_cons.
  change (k ++ ":"%char :: " "%char :: v ++ [LF])
    with (k ++ [":"%char; " "%char] ++ v ++ [LF]).
  rewrite !app_assoc, <- (app_assoc _ [LF]). simpl.
  rewrite <- (app_assoc _ (LF :: _) trailer), <- app_comm_cons.
  rewrite getlines_line; [done|].
  rewrite !elem_of_app, !elem_of_cons, elem_of_nil. intuition discriminate.
Qed.

Lemma header_lines_file f :
  Forall (fun kv => well_formed_field kv = true) (pf_fields f) ->
  LF ∉ pf_title f ->
  header_lines (file_contents f) = map field_line (pf_fields f).
Proof.
  intros Hf Ht. unfold header_lines, file_contents. cbn [app].
  rewrite getlines_line by done. simpl tail.
  rewrite getlines_fields by done.
  rewrite header_of_app_not_sep.
  - destruct (pf_body f) as [body|]; simpl; by rewrite app_nil_r.
  - apply Forall_forall. intros l Hl.
    apply list_elem_of_In, in_map_iff in Hl as (kv & <- & Hkv).
    apply field_line_not_separator.
    rewrite Forall_forall in Hf. apply Hf. by apply list_elem_of_In.
Qed.

(** The record rendered for a well-formed post file is its JSON object. *)
Lemma entry_text_file w f :
  well_formed f = true -> entry_text w (dirent_of f) = json_object f.
Proof.
  unfold well_formed. rewrite !andb_true_iff, !absent_spec, forallb_forall.
  intros [[Hn Ht] Hf].
  assert (Forall (fun kv => well_formed_field kv = true) (pf_fields f)) as Hf'.
  { apply Forall_forall. intros kv Hkv. by apply Hf, list_elem_of_In. }
  unfold entry_text, record_text, json_object.
  cbn [contents_of dirent_of d_fopen d_name].
  rewrite header_lines_file by done.
  unfold format_path. rewrite c_str_id by done.
  rewrite <- !app_assoc. do 4 f_equal.
  f_equal. rewrite map_map. clear -Hf'.
  induction Hf' as [|kv fields Hkv _ IH]; simpl; [done|].
  by rewrite IH, header_text_field.
Qed.

(** The example files are post files of that layout. *)
Lemma example_post_files :
  christmas = dirent_of christmas_file /\ well_formed christmas_file = true
  /\ spring = dirent_of spring_file /\ well_formed spring_file = true.
Proof. repeat split; run. Qed.

(** A directory in which every visible entry is a well-formed post file:
    the lines of the output are the JSON objects of the files. *)
Lemma well_formed_directory_output qsort w ents files :
  permutes qsort ->
  opendir_posts w = inr ents ->
  visible ents = map dirent_of files ->
  Forall (fun f => well_formed f = true) files ->
  exit_status (main qsort w) = 0 ->
  exists printed,
    printed ≡ₚ map json_object files
    /\ standard_output (main qsort w)
       = lit "[" ++ [LF] ++ concat (map (fun o => o ++ [LF]) printed)
         ++ lit "]" ++ [LF].
Proof.
  intros Hq Hd Hv Hf Hs.
  destruct (main_output_permuted qsort w ents Hq Hd Hs) as (texts & Hperm & Hout).
  exists texts. split; [|done].
  rewrite Hperm, Hv, map_map. clear -Hf.
  induction Hf as [|f files Hf _ IH]; simpl; [done|].
  by rewrite IH, entry_text_file.
Qed.

(** The two ways of saying which entries the loop goes through agree. *)
Lemma visible_listed ents : visible ents = listed ents.
Proof.
  unfold visible, listed. induction ents as [|e ents IH]; [done|].
  destruct (d_name e) as [|c name] eqn:En.
  - rewrite !filter_cons_True, IH; by rewrite ?En.
  - destruct (Ascii.eqb_spec c ".") as [->|Hc].
    + rewrite !filter_cons_False, IH; rewrite ?En; simpl; [done | | ].
      * intros H. by apply H.
      * by rewrite Ascii.eqb_refl.
    + rewrite !filter_cons_True, IH; rewrite ?En; simpl; [done | | ].
      * intros [= ->]. done.
      * by apply Ascii.eqb_neq.
Qed.

(** *** The reader on the text of a record *)

Lemma plain_spec s :
  plain s = true
  -> Forall (fun c => c ≠ DQUOTE /\ c ≠ BACKSLASH /\ json_control c = false) s.
Proof.
  unfold plain. rewrite andb_true_iff, forallb_Forall. intros [_ H].
  eapply Forall_impl; [exact H|]. intros c.
  rewrite !andb_true_iff, !negb_true_iff, !Ascii.eqb_neq. tauto.
Qed.

Lemma plain_utf8 s : plain s = true -> utf8 s = true.
Proof. unfold plain. rewrite andb_true_iff. tauto. Qed.

(** UTF-8 texts one after the other. *)
Lemma utf8_run_app q a b :
  utf8_run q (a ++ b)
  = match utf8_run q a with Some q' => utf8_run q' b | None => None end.
Proof.
  revert q. induction a as [|c a IH]; intros q; simpl; [done|].
  destruct (utf8_step q c); [apply IH | done].
Qed.

Lemma utf8_app a b : utf8 a = true -> utf8 b = true -> utf8 (a ++ b) = true.
Proof.
  unfold utf8. rewrite utf8_run_app.
  by destruct (utf8_run u_start a) as [[]|].
Qed.

Lemma utf8_concat l : Forall (fun s => utf8 s = true) l -> utf8 (concat l) = true.
Proof. induction 1; simpl; [done|]. by apply utf8_app. Qed.

Lemma utf8_quoted s : utf8 s = true -> utf8 (quoted s) = true.
Proof.
  intros H. unfold quoted. apply (utf8_app [DQUOTE]); [done|].
  by apply utf8_app.
Qed.

Lemma plain_no_control s c : plain s = true -> json_control c = true -> c ∉ s.
Proof.
  intros H%plain_spec Hc Hin. rewrite Forall_forall in H.
  destruct (H c Hin) as (_ & _ & H'). congruence.
Qed.

Lemma plain_file_well_formed f : plain_file f = true -> well_formed f = true.
Proof.
  unfold plain_file, well_formed. rewrite !andb_true_iff.
  intros [[Hn Ht] Hf]. split; [split; [|done]|].
  - apply absent_spec. by apply (plain_no_control (pf_name f)).
  - rewrite forallb_Forall in *. eapply Forall_impl; [exact Hf|].
    intros [k v]. unfold plain_field, well_formed_field. cbn [fst snd].
    rewrite !andb_true_iff, !absent_spec. intros [[Hk Hc] Hv].
    repeat split; try done; by apply plain_no_control.
Qed.

(** Inside a string, the reader goes through a plain string up to the
    closing quote. *)
Lemma json_read_name acc members s rest :
  plain s = true ->
  json_read (js_name acc) members (s ++ DQUOTE :: rest)
  = json_read (js_colon (acc ++ s)) members rest.
Proof.
  intros H%plain_spec. revert acc.
  induction H as [|c s (Hq & Hb & Hc) _ IH]; intros acc.
  - rewrite app_nil_r. cbn [app json_read]. by rewrite Ascii.eqb_refl.
  - cbn [app json_read].
    rewrite (proj2 (Ascii.eqb_neq _ _) Hq), (proj2 (Ascii.eqb_neq _ _) Hb), Hc.
    by rewrite IH, <- app_assoc.
Qed.

Lemma json_read_value name acc members s rest :
  plain s = true ->
  json_read (js_value name acc) members (s ++ DQUOTE :: rest)
  = json_read js_after_value (members ++ [(name, acc ++ s)]) rest.
Proof.
  intros H%plain_spec. revert acc.
  induction H as [|c s (Hq & Hb & Hc) _ IH]; intros acc.
  - rewrite app_nil_r. cbn [app json_read]. by rewrite Ascii.eqb_refl.
  - cbn [app json_read].
    rewrite (proj2 (Ascii.eqb_neq _ _) Hq), (proj2 (Ascii.eqb_neq _ _) Hb), Hc.
    by rewrite IH, <- app_assoc.
Qed.

(** Between the strings. *)
Lemma json_read_open members s :
  json_read js_start members ("{"%char :: DQUOTE :: s)
  = json_read (js_name []) members s.
Proof. reflexivity. Qed.

Lemma json_read_colon name members s :
  json_read (js_colon name) members (":"%char :: " "%char :: DQUOTE :: s)
  = json_read (js_value name []) members s.
Proof. reflexivity. Qed.

Lemma json_read_next members s :
  json_read js_after_value members (","%char :: " "%char :: DQUOTE :: s)
  = json_read (js_name []) members s.
Proof. reflexivity. Qed.

Lemma json_read_close members :
  json_read js_after_value members ["}"%char] = Some members.
Proof. reflexivity. Qed.

(** A member of two plain strings. *)
Lemma json_read_member k v members rest :
  plain k = true -> plain v = true ->
  json_read (js_name []) members
    (k ++ DQUOTE :: ":"%char :: " "%char :: DQUOTE :: v ++ DQUOTE :: rest)
  = json_read js_after_value (members ++ [(k, v)]) rest.
Proof.
  intros Hk Hv.
  by rewrite json_read_name, json_read_colon, json_read_value.
Qed.

Lemma json_field_app k v rest :
  json_field (k, v) ++ rest
  = ","%char :: " "%char :: DQUOTE
    :: k ++ DQUOTE :: ":"%char :: " "%char :: DQUOTE :: v ++ DQUOTE :: rest.
Proof.
  unfold json_field, quoted. cbn [fst snd].
  change (lit ", ") with [","%char; " "%char].
  change (lit ": ") with [":"%char; " "%char].
  by do 3 (rewrite <- ?app_assoc; cbn [app]).
Qed.

Lemma json_read_fields fields members rest :
  Forall (fun kv => plain_field kv = true) fields ->
  json_read js_after_value members (concat (map json_field fields) ++ rest)
  = json_read js_after_value (members ++ fields) rest.
Proof.
  intros H. revert members.
  induction H as [|[k v] fields Hkv _ IH]; intros members; cbn [map concat].
  - by rewrite app_nil_r.
  - unfold plain_field in Hkv. cbn [fst snd] in Hkv.
    apply andb_true_iff in Hkv as [[Hk _]%andb_true_iff Hv].
    rewrite <- app_assoc, json_field_app, json_read_next, json_read_member by done.
    by rewrite IH, <- app_assoc.
Qed.

(** The text of section 4.4 for a post file of plain strings denotes the
    object whose members are the path and the pairs of the header. *)
Lemma json_object_utf8 f : plain_file f = true -> utf8 (json_object f) = true.
Proof.
  unfold plain_file. rewrite !andb_true_iff, forallb_Forall.
  intros [[Hn%plain_utf8 _] Hf]. unfold json_object.
  repeat first [ done | apply utf8_app | apply utf8_quoted ].
  apply utf8_concat, Forall_fmap. eapply Forall_impl; [exact Hf|].
  intros [k v]. unfold plain_field, json_field. cbn [fst snd].
  rewrite !andb_true_iff. intros [[Hk%plain_utf8 _] Hv%plain_utf8].
  repeat first [ done | apply utf8_app | apply utf8_quoted ].
Qed.

Lemma json_members_object f :
  plain_file f = true ->
  json_members (json_object f) = Some ((lit "path", pf_name f) :: pf_fields f).
Proof.
  intros Hf. unfold json_members. rewrite json_object_utf8 by done.
  revert Hf. unfold plain_file. rewrite !andb_true_iff, forallb_Forall.
  intros [[Hn _] Hf]. unfold json_object, quoted.
  change (lit "{") with ["{"%char].
  change (lit ": ") with [":"%char; " "%char].
  change (lit "}") with ["}"%char].
  do 3 (rewrite <- ?app_assoc; cbn [app]).
  rewrite json_read_open, json_read_member, json_read_fields by done.
  by rewrite json_read_close.
Qed.

(** C6 (as stated) fails, at explicit inputs.  Five directories of one
    file each; every run ends with status 0 and stores nothing
    outside an array.
    - The header pair has the value [x", "draft": "yes].  The line
      printed is the text of the object of a file with the two pairs
      [title: x] and [draft: yes]: a reader of JSON finds in it a field
      [title] with another value and a field [draft] that the header
      does not have.
    - The value holds a backslash and [t]: the reader finds a value
      with a tab.
    - The value holds a tab, or a byte that is not UTF-8: the line
      printed is no JSON text.
    - The last header line [title: Hello] has no newline: the field
      printed has the value [Hell]. *)
Lemma quote_in_value_read_as_two_fields :
  (well_formed quoting_file = true
   /\ exit_status (main insertion_qsort (no_garbage [dirent_of quoting_file])) = 0
   /\ memory_faults (main insertion_qsort (no_garbage [dirent_of quoting_file])) = []
   /\ standard_output (main insertion_qsort (no_garbage [dirent_of quoting_file]))
      = lit "[" ++ [LF] ++ json_object drafted_file ++ [LF] ++ lit "]" ++ [LF]
   /\ json_members (json_object drafted_file)
      = Some [(lit "path", lit "a.md"); (lit "title", lit "x");
              (lit "draft", lit "yes")]
   /\ json_members (json_object drafted_file)
      ≠ Some ((lit "path", pf_name quoting_file) :: pf_fields quoting_file))
  /\ (well_formed escaping_file = true
      /\ exit_status (main insertion_qsort (no_garbage [dirent_of escaping_file])) = 0
      /\ memory_faults (main insertion_qsort (no_garbage [dirent_of escaping_file])) = []
      /\ standard_output (main insertion_qsort (no_garbage [dirent_of escaping_file]))
         = lit "[" ++ [LF] ++ json_object escaping_file ++ [LF] ++ lit "]" ++ [LF]
      /\ json_members (json_object escaping_file)
         = Some [(lit "path", lit "a.md"); (lit "title", lit "a" ++ TAB :: lit "b")]
      /\ json_members (json_object escaping_file)
         ≠ Some ((lit "path", pf_name escaping_file) :: pf_fields escaping_file))
  /\ (well_formed tabbed_file = true
      /\ exit_status (main insertion_qsort (no_garbage [dirent_of tabbed_file])) = 0
      /\ memory_faults (main insertion_qsort (no_garbage [dirent_of tabbed_file])) = []
      /\ standard_output (main insertion_qsort (no_garbage [dirent_of tabbed_file]))
         = lit "[" ++ [LF] ++ json_object tabbed_file ++ [LF] ++ lit "]" ++ [LF]
      /\ json_members (json_object tabbed_file) = None)
  /\ (well_formed latin1_file = true
      /\ exit_status (main insertion_qsort (no_garbage [dirent_of latin1_file])) = 0
      /\ memory_faults (main insertion_qsort (no_garbage [dirent_of latin1_file])) = []
      /\ standard_output (main insertion_qsort (no_garbage [dirent_of latin1_file]))
         = lit "[" ++ [LF] ++ json_object latin1_file ++ [LF] ++ lit "]" ++ [LF]
      /\ json_members (json_object latin1_file) = None)
  /\ (exit_status (main insertion_qsort (no_garbage [unterminated])) = 0
      /\ memory_faults (main insertion_qsort (no_garbage [unterminated])) = []
      /\ standard_output (main insertion_qsort (no_garbage [unterminated]))
         = lit "[" ++ [LF] ++ json_object truncated_file ++ [LF] ++ lit "]" ++ [LF]
      /\ json_members (json_object truncated_file)
         = Some [(lit "path", lit "a.md"); (lit "title", lit "Hell")]).
Proof.
  repeat split; first [run | by vm_compute].
Qed.

(** C6 (amended).  In a run that ends with status 0 and has stored
    nothing outside an array, the standard output is the opening
    bracket, one line per entry whose name does not begin with a dot,
    and the closing bracket, the lines in the order in which [qsort]
    leaves the records.  For
    every entry that is a post file of plain strings (header lines of
    the shape [key: value] with their newline; the name, the keys and
    the values UTF-8 text without double quote, backslash or control
    character; no colon in a key), the line of the entry is a JSON object
    whose members are the path and then the pairs of the header, with
    the same keys and the same values, in the order of the header, and
    no other member. *)
Theorem header_pairs_round_trip qsort w ents :
  permutes qsort ->
  opendir_posts w = inr ents ->
  exit_status (main qsort w) = 0 ->
  memory_faults (main qsort w) = [] ->
  exists lines printed,
    standard_output (main qsort w)
    = lit "[" ++ [LF] ++ concat (map (fun l => l ++ [LF]) printed)
      ++ lit "]" ++ [LF]
    /\ printed ≡ₚ lines
    /\ Forall2 (fun e line =>
                  forall f, e = dirent_of f -> plain_file f = true ->
                            json_members line
                            = Some ((lit "path", pf_name f) :: pf_fields f))
               (listed ents) lines.
Proof.
  intros Hq Hd Hs _.
  destruct (main_output_permuted qsort w ents Hq Hd Hs) as (texts & Hperm & Hout).
  exists (map (entry_text w) (listed ents)), texts.
  split; [done|]. split; [by rewrite <- visible_listed|]. clear.
  induction (listed ents) as [|e es IH]; simpl; constructor; [|done].
  intros f -> Hf.
  rewrite entry_text_file by (by apply plain_file_well_formed).
  by apply json_members_object.
Qed.

Lemma header_pairs_round_trip_witness :
  exists lines printed,
    standard_output (main insertion_qsort older_first)
    = lit "[" ++ [LF] ++ concat (map (fun l => l ++ [LF]) printed)
      ++ lit "]" ++ [LF]
    /\ printed ≡ₚ lines
    /\ Forall2 (fun e line =>
                  forall f, e = dirent_of f -> plain_file f = true ->
                            json_members line
                            = Some ((lit "path", pf_name f) :: pf_fields f))
               (listed [christmas; spring]) lines.
Proof.
  apply (header_pairs_round_trip insertion_qsort older_first [christmas; spring]).
  - apply insertion_qsort_permutes.
  - run.
  - run.
  - run.
Defined.

(** ** C5, C1: the comparison and the order of the output *)

Lemma entry_text_path_field w e : path_field (d_name e) `prefix_of` entry_text w e.
Proof.
  unfold entry_text, record_text.
  change (format_path (d_name e))
    with (path_field (d_name e)).
  by eexists.
Qed.

(** ** The example [qsort]s sort *)

Lemma insert_sorted_ascending cmp p l :
  consistent cmp -> ascending cmp l -> ascending cmp (insert_sorted cmp p l).
Proof.
  intros [Hanti Htrans]. induction l as [|q l IH]; simpl.
  - intros _. split; [constructor | done].
  - intros [Hq Hl]. destruct (Z.ltb_spec 0 (cmp q p)) as [H|H]; simpl.
    + pose proof (Hanti _ _ H) as Hpq.
      split; [|by split]. constructor; [lia|].
      eapply Forall_impl; [exact Hq|]. intros x Hx.
      apply (Htrans p q x); [lia | done].
    + split; [|by apply IH].
      rewrite (insert_sorted_Permutation cmp p l). by constructor.
Qed.

Lemma sorted_prefix_ascending cmp done todo :
  consistent cmp -> ascending cmp done -> ascending cmp (sorted_prefix cmp done todo).
Proof.
  intros Hc. revert done. induction todo as [|p todo IH]; intros done Hd; simpl.
  - done.
  - by apply IH, insert_sorted_ascending.
Qed.

Lemma insertion_qsort_sorts : sorts insertion_qsort.
Proof. intros cmp l Hc. by apply sorted_prefix_ascending. Qed.

Lemma rev_qsort_permutes : permutes rev_qsort.
Proof.
  intros cmp l. unfold rev_qsort.
  by rewrite (insertion_qsort_permutes cmp (reverse l)), reverse_Permutation.
Qed.

Lemma rev_qsort_sorts : sorts rev_qsort.
Proof. intros cmp l Hc. by apply insertion_qsort_sorts. Qed.

Lemma cmp_posts_consistent : consistent cmp_posts.
Proof. split; intros; rewrite ?cmp_posts_0 in *; lia. Qed.

(** C5 (as stated) fails, at an explicit input.  [rev_qsort] does
    what C asks of [qsort]: it permutes the array and sorts it according
    to every consistent comparison, [cmp_posts] among them.  The
    directory holds [christmas.md] and then [spring.md].  With this
    [qsort] the run succeeds and prints the record of [spring.md]
    first: the sort has reordered the records, and the order of the
    output is not that of the directory. *)
Lemma permuting_qsort_reorders :
  permutes rev_qsort /\ sorts rev_qsort /\ consistent cmp_posts
  /\ opendir_posts older_first = inr [christmas; spring]
  /\ exit_status (main rev_qsort older_first) = 0
  /\ memory_faults (main rev_qsort older_first) = []
  /\ standard_output (main rev_qsort older_first)
     = lit "[" ++ [LF] ++ json_object spring_file ++ [LF]
       ++ json_object christmas_file ++ [LF] ++ lit "]" ++ [LF]
  /\ standard_output (main rev_qsort older_first)
     ≠ lit "[" ++ [LF]
       ++ concat (map (fun e => entry_text older_first e ++ [LF])
                    (listed [christmas; spring]))
       ++ lit "]" ++ [LF].
Proof.
  split; [apply rev_qsort_permutes|]. split; [apply rev_qsort_sorts|].
  split; [apply cmp_posts_consistent|].
  split; [run|]. split; [run|]. split; [run|]. split; [run|].
  by vm_compute.
Qed.

(** C5 (amended).  [cmp_posts] returns 0 for every pair of records,
    whatever their dates.  Hence a [qsort] that leaves records comparing
    equal where they are returns the array unchanged; and with such a
    [qsort], a run that ends with status 0 and has stored nothing
    outside an array prints the records of the entries whose name does not begin with a
    dot in the order in which [readdir] returned them, each record
    beginning with the path field of its entry. *)
Theorem comparison_always_zero_order_kept :
  (forall lhs rhs, cmp_posts lhs rhs = 0)
  /\ (forall qsort l, keeps_ties qsort -> qsort cmp_posts l = l)
  /\ (forall qsort w ents,
        keeps_ties qsort ->
        opendir_posts w = inr ents ->
        exit_status (main qsort w) = 0 ->
        memory_faults (main qsort w) = [] ->
        standard_output (main qsort w)
        = lit "[" ++ [LF]
          ++ concat (map (fun e => entry_text w e ++ [LF]) (listed ents))
          ++ lit "]" ++ [LF]
        /\ Forall (fun e => path_field (d_name e) `prefix_of` entry_text w e)
                  (listed ents)).
Proof.
  split; [apply cmp_posts_0|]. split.
  - intros qsort l Hq. by apply keeps_ties_cmp_posts.
  - intros qsort w ents Hq Hd Hs _. rewrite <- visible_listed. split.
    + by apply main_output_in_order.
    + apply Forall_forall. intros e _. apply entry_text_path_field.
Qed.

Lemma comparison_always_zero_order_kept_witness :
  standard_output (main insertion_qsort older_first)
  = lit "[" ++ [LF]
    ++ concat (map (fun e => entry_text older_first e ++ [LF])
                 (listed [christmas; spring]))
    ++ lit "]" ++ [LF]
  /\ Forall (fun e => path_field (d_name e) `prefix_of` entry_text older_first e)
            (listed [christmas; spring]).
Proof.
  apply (proj2 (proj2 comparison_always_zero_order_kept) insertion_qsort
           older_first [christmas; spring]).
  - apply insertion_qsort_keeps_ties.
  - run.
  - run.
  - run.
Defined.

(** C1 (the code at a failing input).  The directory holds a post dated
    2023-12-25 and then a post dated 2024-03-01.  With a [qsort] that
    keeps ties in place the run prints the older post first: the dates
    of the output ascend. *)
Theorem older_post_printed_first qsort :
  keeps_ties qsort ->
  standard_output (main qsort older_first)
  = lit "[" ++ [LF] ++ json_object christmas_file ++ [LF]
    ++ json_object spring_file ++ [LF] ++ lit "]" ++ [LF]
  /\ record_date older_first 0 (contents_of christmas)
     < record_date older_first 1 (contents_of spring).
Proof.
  intros Hq. split; [|by vm_compute].
  rewrite (main_output_in_order qsort older_first [christmas; spring] Hq);
    [run | run | run].
Qed.

Lemma older_post_printed_first_witness :
  standard_output (main insertion_qsort older_first)
  = lit "[" ++ [LF] ++ json_object christmas_file ++ [LF]
    ++ json_object spring_file ++ [LF] ++ lit "]" ++ [LF]
  /\ record_date older_first 0 (contents_of christmas)
     < record_date older_first 1 (contents_of spring).
Proof.
  apply (older_post_printed_first insertion_qsort).
  apply insertion_qsort_keeps_ties.
Defined.

(** * Further properties of the program *)

(** ** The outcome of a run *)

(** The inner loop returns only at a line of the header that is not
    accepted, after accepted ones. *)
Lemma read_header_Returned_line w name lines st status st' :
  read_header w name lines st = Returned status st' ->
  exists ok bad rest,
    header_of lines = ok ++ bad :: rest
    /\ Forall (fun l => line_accepted l = true) ok
    /\ line_accepted bad = false.
Proof.
  revert st. induction lines as [|l lines IH]; intros st; simpl; [discriminate|].
  destruct (strcmp l metadata_separator =? 0); [discriminate|].
  destruct (line_accepted l) eqn:Hl.
  - rewrite header_line_accepted by done. intros H.
    destruct (IH _ H) as (ok & bad & rest & -> & Hok & Hbad).
    exists (l :: ok), bad, rest. split; [done|]. split; [by constructor | done].
  - intros _. exists [], l, (header_of lines). by repeat split.
Qed.

(** The three ways in which the body of the outer loop returns, with
    what each writes on the standard error. *)
Lemma visit_Returned_diagnostic w ent st status st' :
  visit w ent st = Returned status st' ->
  exists e,
    stderr st' = stderr st ++ e
    /\ ((exists msg, d_fopen ent = fopen_fails msg
                     /\ e = c_str (d_name ent) ++ lit ": " ++ msg ++ [LF])
        \/ (exists contents ok bad rest,
              d_fopen ent = fopen_ok contents
              /\ header_lines contents = ok ++ bad :: rest
              /\ Forall (fun l => line_accepted l = true) ok
              /\ line_accepted bad = false
              /\ e = line_diagnostic (d_name ent) bad)
        \/ ((MAX_POSTS <= nposts st)%nat
            /\ e = format_too_many (S (nposts st))
            /\ faults st' ≠ [])).
Proof.
  unfold visit. destruct (is_hidden (d_name ent)) eqn:Hh; [discriminate|].
  destruct (d_fopen ent) as [msg|contents] eqn:Ho.
  - intros [= <- <-]. eexists. split; [done|]. left. eauto.
  - destruct (read_header _ _ _ _) as [st1|status1 st1] eqn:E.
    + apply read_header_Running in E as [Hacc ->].
      set (st0 := sprintf_buf _ _).
      destruct (header_run_frame w (d_name ent)
                  (header_of (tail (getlines contents))) st0)
        as (_ & Hn & _ & Herr & _).
      subst st0. state_simpl. rewrite Hn.
      destruct (Nat.ltb_spec MAX_POSTS (S (nposts st))) as [Hfull|]; [|discriminate].
      intros [= <- <-]. state_simpl. rewrite Herr.
      eexists. split; [done|]. right. right. split; [lia|]. split; [done|].
      rewrite Hn. destruct (Nat.leb_spec MAX_POSTS (nposts st)); [|lia].
      intros [_ ?]%app_eq_nil. done.
    + intros [= <- <-].
      destruct (read_header_Returned_line _ _ _ _ _ _ E)
        as (ok & bad & rest & Hl & Hok & Hbad).
      set (st0 := sprintf_buf _ _) in *.
      destruct (read_header_rejected w (d_name ent) (tail (getlines contents))
                  ok bad rest st0 Hl Hok Hbad) as (st2 & E2 & _ & Herr).
      rewrite E in E2. injection E2 as _ <-.
      destruct (header_run_frame w (d_name ent) ok st0) as (_ & _ & _ & Herr0 & _).
      eexists. split; [by rewrite Herr, Herr0|].
      right. left. exists contents, ok, bad, rest. done.
Qed.

(** The outer loop returns at one entry, after it has gone through the
    entries before it. *)
Lemma readdir_loop_Returned_at w ents st status st' :
  readdir_loop w ents st = Returned status st' ->
  exists before ent after st1,
    ents = before ++ ent :: after
    /\ readdir_loop w before st = Running st1
    /\ visit w ent st1 = Returned status st'.
Proof.
  revert st. induction ents as [|e ents IH]; intros st; simpl; [discriminate|].
  destruct (visit w e st) as [st1|status1 st1] eqn:E.
  - intros H. destruct (IH _ H) as (before & ent & after & st2 & -> & Hb & Hv).
    exists (e :: before), ent, after, st2. split; [done|]. split; [|done].
    simpl. by rewrite E.
  - intros [= <- <-]. exists [], e, ents, st. by repeat split.
Qed.

Lemma entry_ok_spec ent :
  entry_ok ent = true
  <-> exists contents,
        d_fopen ent = fopen_ok contents
        /\ Forall (fun l => line_accepted l = true) (header_lines contents).
Proof.
  unfold entry_ok. destruct (d_fopen ent) as [msg|contents].
  - split; [done|]. by intros (c & ? & _).
  - rewrite forallb_Forall. split; [eauto|]. by intros (c & [= <-] & H).
Qed.

Lemma visible_cons_hidden e ents :
  is_hidden (d_name e) = true -> visible (e :: ents) = visible ents.
Proof. intros H. unfold visible. rewrite filter_cons_False; [done|]. by rewrite H. Qed.

Lemma visible_cons_visible e ents :
  is_hidden (d_name e) = false -> visible (e :: ents) = e :: visible ents.
Proof. intros H. unfold visible. by rewrite filter_cons_True. Qed.

(** The outer loop goes through the entries exactly when every visible
    one opens with an accepted header and the array has room for all of
    them; it then has stored one record for each. *)
Lemma readdir_loop_Running_iff w ents st :
  (nposts st <= MAX_POSTS)%nat ->
  (exists st', readdir_loop w ents st = Running st')
  <-> Forall (fun e => entry_ok e = true) (visible ents)
      /\ (nposts st + length (visible ents) <= MAX_POSTS)%nat.
Proof.
  revert st. induction ents as [|e ents IH]; intros st Hst; simpl.
  - split; [|eauto]. intros _. split; [constructor | simpl; lia].
  - destruct (visit w e st) as [st1|status1 st1] eqn:E.
    + apply visit_Running in E
        as [[Hh ->]|(c & Hh & Ho & Hacc & Hn & _ & _ & Hn' & _)].
      * rewrite visible_cons_hidden by done. by apply IH.
      * rewrite visible_cons_visible by done. rewrite IH by lia.
        rewrite Forall_cons, Hn'. simpl.
        assert (entry_ok e = true) by (apply entry_ok_spec; eauto).
        split; [intros [? ?]; split; [done|lia] | intros [[_ ?] ?]; split; [done|lia]].
    + split; [by intros [? ?]|]. intros [HF Hroom]. exfalso.
      destruct (is_hidden (d_name e)) eqn:Hh.
      { by rewrite visit_hidden in E. }
      rewrite visible_cons_visible in HF, Hroom by done.
      apply Forall_cons in HF as [He _]. simpl in Hroom.
      apply entry_ok_spec in He as (c & Ho & Hacc).
      destruct (visit_stored w e st c Hh Ho Hacc) as [st2 E2]; [lia|].
      congruence.
Qed.

Lemma readdir_loop_nposts w ents st st' :
  readdir_loop w ents st = Running st' ->
  nposts st' = (nposts st + length (visible ents))%nat.
Proof.
  revert st. induction ents as [|e ents IH]; intros st; simpl.
  - intros [= <-]. lia.
  - destruct (visit w e st) as [st1|status1 st1] eqn:E; [|discriminate].
    intros H. rewrite (IH _ H).
    apply visit_Running in E as [[Hh ->]|(c & Hh & _ & _ & _ & _ & _ & -> & _)].
    + by rewrite visible_cons_hidden.
    + rewrite visible_cons_visible by done. simpl. lia.
Qed.

(** Lines 99-101 only add to the standard output. *)
Lemma print_posts_appends st :
  exists body,
    stdout (print_posts st) = stdout st ++ body
    /\ stderr (print_posts st) = stderr st
    /\ faults (print_posts st) = faults st
    /\ nposts (print_posts st) = nposts st.
Proof.
  unfold print_posts. generalize (seq 0 (nposts st)). intros l.
  revert st. induction l as [|i l IH]; intros st; simpl.
  - exists []. by rewrite app_nil_r.
  - destruct (posts st !! i) as [[dt [|off]]|]; simpl; try apply IH.
    destruct (IH (print_out (c_str (drop off (buf st)) ++ [LF]) st))
      as (body & -> & -> & -> & ->).
    state_simpl. eexists. split; [by rewrite <- app_assoc | done].
Qed.

(** ** The bounds of the buffer *)

Lemma recorded_nil (l : list fault) (b : bool) x :
  l ++ (if b then [x] else []) = [] <-> l = [] /\ b = false.
Proof.
  destruct b.
  - split; [|by intros [_ ?]]. intros H. by apply app_eq_nil in H as [_ ?].
  - rewrite app_nil_r. by split; [|intros [? _]].
Qed.

Lemma sprintf_buf_fits text st :
  fits st \/ fits_open st -> fits_open (sprintf_buf text st).
Proof.
  unfold fits, fits_open. intros H. state_simpl.
  rewrite recorded_nil, Nat.leb_gt, length_app.
  destruct H as [[_ H]|[_ H]];
    (split; [by intros [_ ?] | intros ?; split; [apply H; lia | done]]).
Qed.

Lemma store_buf_fits c st :
  fits st \/ fits_open st -> fits (store_buf c st).
Proof.
  unfold fits, fits_open. intros H. state_simpl.
  rewrite recorded_nil, Nat.leb_gt, length_app. simpl.
  destruct H as [[_ H]|[_ H]];
    (split; [intros [_ ?]; lia | intros ?; split; [apply H; lia | lia]]).
Qed.

Lemma header_run_fits w name lines st :
  fits_open st -> fits_open (header_run w name lines st).
Proof.
  revert st. induction lines as [|l lines IH]; intros st H; [done|].
  unfold header_run in *. simpl. apply IH. unfold header_step.
  pose proof (sprintf_buf_fits (header_text w name l) st (or_intror H)) as H'.
  by destruct (is_date_line l).
Qed.

Lemma visit_fits w ent st st' :
  visit w ent st = Running st' -> fits st -> fits st'.
Proof.
  unfold visit. destruct (is_hidden (d_name ent)); [by intros [= <-]|].
  destruct (d_fopen ent) as [msg|contents]; [discriminate|].
  destruct (read_header _ _ _ _) as [st1|status1 st1] eqn:E; [|discriminate].
  apply read_header_Running in E as [_ ->].
  set (st0 := sprintf_buf _ _).
  set (st1 := header_run _ _ _ st0).
  intros Hv Hfits.
  assert (fits_open st1) as H1.
  { apply header_run_fits. subst st0.
    apply sprintf_buf_fits. left. exact Hfits. }
  pose proof (store_buf_fits NUL _
                (or_introl (store_buf_fits "}" st1 (or_intror H1)))) as H2.
  revert Hv. state_simpl.
  destruct (Nat.ltb_spec MAX_POSTS (S (nposts st1))); [discriminate|].
  intros [= <-]. unfold fits in *. state_simpl.
  rewrite recorded_nil, Nat.leb_gt. rewrite H2. split; [by intros [? _] | done].
Qed.

Lemma readdir_loop_fits w ents st st' :
  readdir_loop w ents st = Running st' -> fits st -> fits st'.
Proof.
  revert st. induction ents as [|e ents IH]; intros st; simpl.
  - by intros [= <-].
  - destruct (visit w e st) as [st1|status1 st1] eqn:E; [|discriminate].
    intros H Hf. apply (IH _ H). by apply (visit_fits w e st).
Qed.

(** The buffer after the loop: the records of the visible entries, one
    after the other. *)
Lemma readdir_loop_buf w ents st st' :
  readdir_loop w ents st = Running st' ->
  buf st' = buf st ++ rendered_bytes w ents.
Proof.
  unfold rendered_bytes.
  revert st. induction ents as [|e ents IH]; intros st; cbn [readdir_loop].
  - intros [= <-]. simpl. by rewrite app_nil_r.
  - destruct (visit w e st) as [st1|status1 st1] eqn:E; [|discriminate].
    intros H. rewrite (IH _ H).
    apply visit_Running in E as [[Hh ->]|(c & Hh & Ho & _ & _ & -> & _)].
    + by rewrite visible_cons_hidden.
    + rewrite visible_cons_visible by done. cbn [map concat].
      unfold entry_text, contents_of. rewrite Ho. by rewrite <- !app_assoc.
Qed.

(** The stores recorded in a run that went through the directory are
    those of the loop. *)
Lemma main_faults qsort w ents st :
  opendir_posts w = inr ents ->
  readdir_loop w ents initial = Running st ->
  memory_faults (main qsort w) = faults st.
Proof.
  intros Hd Hl. unfold main, memory_faults. rewrite Hd, Hl. cbn [snd].
  destruct (print_posts_appends
              (print_out (lit "[" ++ [LF])
                 (set_posts (qsort cmp_posts (take (nposts st) (posts st))
                             ++ drop (nposts st) (posts st)) st)))
    as (_ & _ & _ & Hf & _).
  state_simpl. by rewrite Hf.
Qed.

Lemma readdir_loop_faults w ents st :
  readdir_loop w ents initial = Running st ->
  faults st = [] <-> (length (rendered_bytes w ents) <= MAX_POSTS * METADATA_MAX_SIZE)%nat.
Proof.
  intros Hl. pose proof (readdir_loop_fits w ents initial st Hl) as Hfits.
  unfold fits in Hfits. rewrite Hfits.
  - by rewrite (readdir_loop_buf _ _ _ _ Hl).
  - simpl. split; [intros _; lia | done].
Qed.

(** X1.  Every run that stores nothing outside an array ends in one of
    two ways.  Either the status is 0, the standard error is empty and
    the standard output is an opening bracket line, some text and a
    closing bracket line; or the status is 1, the standard output is
    empty and the standard error holds exactly one diagnostic: that of
    [perror] for the directory or for an entry that does not open, or
    that of a header line without a colon or of a date line of the wrong
    length.  (The fifth diagnostic of the source, that of the full
    array, is printed only after a store past the array.) *)
Theorem run_outcome qsort w :
  memory_faults (main qsort w) = [] ->
  (exit_status (main qsort w) = 0
   /\ standard_error (main qsort w) = []
   /\ exists body,
        standard_output (main qsort w) = lit "[" ++ [LF] ++ body ++ lit "]" ++ [LF])
  \/ (exit_status (main qsort w) = 1
      /\ standard_output (main qsort w) = []
      /\ ((exists msg, opendir_posts w = inl msg
                       /\ standard_error (main qsort w)
                          = lit "posts: " ++ msg ++ [LF])
          \/ (exists ents ent msg,
                opendir_posts w = inr ents /\ ent ∈ ents
                /\ d_fopen ent = fopen_fails msg
                /\ standard_error (main qsort w)
                   = c_str (d_name ent) ++ lit ": " ++ msg ++ [LF])
          \/ (exists ents ent contents line,
                opendir_posts w = inr ents /\ ent ∈ ents
                /\ d_fopen ent = fopen_ok contents
                /\ line ∈ header_lines contents
                /\ (standard_error (main qsort w)
                    = c_str (d_name ent) ++ lit ": missing colon in line:"
                      ++ [LF; TAB] ++ c_str line
                    \/ standard_error (main qsort w)
                       = c_str (d_name ent) ++ lit ": malformed date line:"
                         ++ [LF; TAB] ++ c_str line)))).
Proof.
  unfold main, exit_status, standard_output, standard_error, memory_faults.
  destruct (opendir_posts w) as [msg|ents] eqn:Hd.
  { intros _. right. simpl. split; [done|]. split; [done|]. left. eauto. }
  destruct (readdir_loop w ents initial) as [st|status st] eqn:E.
  - intros _. left. cbn [fst snd].
    destruct (readdir_loop_Running_streams _ _ _ _ E) as [Hout Herr].
    set (st1 := print_out _ (set_posts _ st)).
    destruct (print_posts_appends st1) as (body & Hb & He & _).
    state_simpl. rewrite Hb, He. subst st1. state_simpl. rewrite Hout, Herr.
    split; [done|]. split; [done|]. exists body.
    change (stdout initial) with (@nil ascii). by rewrite app_nil_l, <- !app_assoc.
  - cbn [fst snd]. intros Hfaults. right.
    destruct (readdir_loop_Returned _ _ _ _ _ E) as [-> Hout].
    split; [done|]. split; [done|]. right.
    destruct (readdir_loop_Returned_at _ _ _ _ _ E)
      as (before & ent & after & st1 & -> & Hb & Hv).
    destruct (readdir_loop_Running_streams _ _ _ _ Hb) as [_ Herr1].
    assert (ent ∈ before ++ ent :: after) as Hin
      by (rewrite elem_of_app, elem_of_cons; auto).
    destruct (visit_Returned_diagnostic _ _ _ _ _ Hv)
      as (e & He & [(msg & Ho & ->)|[(c & ok & bad & rest & Ho & Hl & _ & Hbad & ->)
                                    |(_ & _ & Hfull)]]);
      [| |done];
      rewrite He, Herr1; change (stderr initial) with (@nil ascii);
      rewrite app_nil_l.
    + left. eauto 10.
    + right. exists (before ++ ent :: after), ent, c, bad.
      split; [done|]. split; [done|]. split; [done|].
      split; [rewrite Hl, elem_of_app, elem_of_cons; auto|].
      unfold line_diagnostic. destruct (strchr bad ":"); [by right | by left].
Qed.

Lemma run_outcome_witness :
  (exit_status (main insertion_qsort with_draft) = 0
   /\ standard_error (main insertion_qsort with_draft) = []
   /\ exists body,
        standard_output (main insertion_qsort with_draft)
        = lit "[" ++ [LF] ++ body ++ lit "]" ++ [LF])
  \/ (exit_status (main insertion_qsort with_draft) = 1
      /\ standard_output (main insertion_qsort with_draft) = []
      /\ ((exists msg, opendir_posts with_draft = inl msg
                       /\ standard_error (main insertion_qsort with_draft)
                          = lit "posts: " ++ msg ++ [LF])
          \/ (exists ents ent msg,
                opendir_posts with_draft = inr ents /\ ent ∈ ents
                /\ d_fopen ent = fopen_fails msg
                /\ standard_error (main insertion_qsort with_draft)
                   = c_str (d_name ent) ++ lit ": " ++ msg ++ [LF])
          \/ (exists ents ent contents line,
                opendir_posts with_draft = inr ents /\ ent ∈ ents
                /\ d_fopen ent = fopen_ok contents
                /\ line ∈ header_lines contents
                /\ (standard_error (main insertion_qsort with_draft)
                    = c_str (d_name ent) ++ lit ": missing colon in line:"
                      ++ [LF; TAB] ++ c_str line
                    \/ standard_error (main insertion_qsort with_draft)
                       = c_str (d_name ent) ++ lit ": malformed date line:"
                         ++ [LF; TAB] ++ c_str line)))).
Proof.
  apply (run_outcome insertion_qsort with_draft). run.
Defined.

(** X2.  The run ends with status 0 and without a store outside an array
    exactly when the directory opens, every visible entry opens and has
    a header of accepted lines only (each with a colon, each date line
    of 17 bytes), there are at most [MAX_POSTS] visible entries, and
    their records, each with its terminator, take at most
    [MAX_POSTS * METADATA_MAX_SIZE] bytes; the run has then stored one
    record per visible entry. *)
Theorem run_succeeds_iff qsort w :
  (exit_status (main qsort w) = 0 /\ memory_faults (main qsort w) = []
   <-> exists ents,
         opendir_posts w = inr ents
         /\ Forall (fun e => entry_ok e = true) (visible ents)
         /\ (length (visible ents) <= MAX_POSTS)%nat
         /\ (length (rendered_bytes w ents) <= MAX_POSTS * METADATA_MAX_SIZE)%nat)
  /\ (forall ents,
        opendir_posts w = inr ents ->
        exit_status (main qsort w) = 0 ->
        memory_faults (main qsort w) = [] ->
        nposts (snd (main qsort w)) = length (visible ents)).
Proof.
  split.
  - split.
    + intros [Hs Hf]. destruct (main_success _ _ Hs) as (ents & st & Hd & Hl).
      exists ents. split; [done|].
      destruct (proj1 (readdir_loop_Running_iff w ents initial ltac:(simpl; lia)))
        as [HF Hlen]; [eauto|].
      split; [done|]. split; [done|].
      apply (readdir_loop_faults w ents st Hl).
      by rewrite <- (main_faults qsort w ents st).
    + intros (ents & Hd & HF & Hlen & Hfit).
      destruct (proj2 (readdir_loop_Running_iff w ents initial
                         ltac:(simpl; lia)) (conj HF Hlen)) as [st Hl].
      split.
      * unfold main. by rewrite Hd, Hl.
      * rewrite (main_faults qsort w ents st) by done.
        by apply (readdir_loop_faults w ents st Hl).
  - intros ents Hd Hs _. destruct (main_success _ _ Hs) as (ents' & st & Hd' & Hl).
    rewrite Hd in Hd'. injection Hd' as <-.
    unfold main. rewrite Hd, Hl. cbn [snd].
    destruct (print_posts_appends
                (print_out (lit "[" ++ [LF])
                   (set_posts (qsort cmp_posts (take (nposts st) (posts st))
                               ++ drop (nposts st) (posts st)) st)))
      as (_ & _ & _ & _ & Hn).
    state_simpl. rewrite Hn. state_simpl.
    by rewrite (readdir_loop_nposts _ _ _ _ Hl).
Qed.

Lemma run_succeeds_iff_witness :
  nposts (snd (main insertion_qsort with_hidden)) = length (visible
    [ {| d_name := lit "."; d_fopen := fopen_ok [] |};
      christmas;
      {| d_name := lit ".draft.md";
         d_fopen := fopen_fails (lit "Permission denied") |};
      spring ]).
Proof.
  apply (proj2 (run_succeeds_iff insertion_qsort with_hidden)); run.
Defined.

(** X3.  Failures to open.  When [opendir] fails the run ends at once:
    status 1, the message of [perror] for the directory name, nothing
    else.  When the loop reaches a visible entry that [fopen] does not
    open (the visible entries before it were gone through), the run
    ends with status 1, the message of [perror] for the name of the
    entry and an empty standard output, even when the array is already
    full. *)
Theorem open_failure_fatal qsort w :
  (forall msg,
     opendir_posts w = inl msg ->
     main qsort w = (1, print_err (lit "posts: " ++ msg ++ [LF]) initial))
  /\ (forall before ent after msg,
        opendir_posts w = inr (before ++ ent :: after) ->
        Forall (fun e => entry_ok e = true) (visible before) ->
        (length (visible before) <= MAX_POSTS)%nat ->
        is_hidden (d_name ent) = false ->
        d_fopen ent = fopen_fails msg ->
        exit_status (main qsort w) = 1
        /\ standard_error (main qsort w)
           = c_str (d_name ent) ++ lit ": " ++ msg ++ [LF]
        /\ standard_output (main qsort w) = []).
Proof.
  split.
  - intros msg Hd. unfold main. by rewrite Hd.
  - intros before ent after msg Hd HF Hlen Hh Ho.
    destruct (proj2 (readdir_loop_Running_iff w before initial
                       ltac:(simpl; lia)) (conj HF Hlen)) as [st Hb].
    destruct (readdir_loop_Running_streams _ _ _ _ Hb) as [_ Herr].
    assert (exists st', visit w ent st = Returned 1 st'
                        /\ stderr st' = stderr st ++ c_str (d_name ent)
                                        ++ lit ": " ++ msg ++ [LF])
      as (st' & Hv & He).
    { unfold visit. rewrite Hh, Ho. eexists. split; [done|]. done. }
    destruct (main_Returned qsort w (before ++ ent :: after) 1 st' Hd) as [-> Hs].
    + rewrite readdir_loop_app, Hb. simpl. by rewrite Hv.
    + unfold exit_status, standard_error, standard_output. cbn [fst snd].
      by rewrite He, Herr, Hs.
Qed.

Lemma open_failure_fatal_witness :
  exit_status (main insertion_qsort with_locked) = 1
  /\ standard_error (main insertion_qsort with_locked)
     = lit "locked.md: Permission denied" ++ [LF]
  /\ standard_output (main insertion_qsort with_locked) = [].
Proof.
  apply (proj2 (open_failure_fatal insertion_qsort with_locked)
           [christmas] locked [spring] (lit "Permission denied")).
  - run.
  - change (visible [christmas]) with [christmas]. run_lines.
  - change (visible [christmas]) with [christmas]. unfold MAX_POSTS. simpl. lia.
  - run.
  - run.
Defined.

(** ** What the run does not depend on *)

(** The loops use of the world only its two sources of indeterminate
    values. *)
Lemma header_line_world w1 w2 name line st :
  past_terminator w1 name = past_terminator w2 name ->
  header_line w1 name line st = header_line w2 name line st.
Proof.
  intros Hp. unfold header_line, at_colon_2. by rewrite Hp.
Qed.

Lemma read_header_world w1 w2 name lines st :
  past_terminator w1 name = past_terminator w2 name ->
  read_header w1 name lines st = read_header w2 name lines st.
Proof.
  intros Hp. revert st. induction lines as [|l lines IH]; intros st; simpl; [done|].
  destruct (strcmp l metadata_separator =? 0); [done|].
  rewrite (header_line_world w1 w2) by done.
  destruct (header_line w2 name l st); [apply IH | done].
Qed.

Lemma readdir_loop_world w1 w2 ents st :
  (forall n, indeterminate_date w1 n = indeterminate_date w2 n) ->
  (forall name, past_terminator w1 name = past_terminator w2 name) ->
  readdir_loop w1 ents st = readdir_loop w2 ents st.
Proof.
  intros Hi Hp. revert st. induction ents as [|e ents IH]; intros st; simpl; [done|].
  assert (visit w1 e st = visit w2 e st) as ->.
  { unfold visit. rewrite Hi. destruct (is_hidden (d_name e)); [done|].
    destruct (d_fopen e); [done|].
    by rewrite (read_header_world w1 w2). }
  destruct (visit w2 e st); [apply IH | done].
Qed.

Lemma readdir_loop_with_entries w ents1 ents2 ents st :
  readdir_loop (with_entries w ents1) ents st
  = readdir_loop (with_entries w ents2) ents st.
Proof. by apply readdir_loop_world. Qed.

(** The run as a function of the result of the outer loop. *)
Lemma main_with_entries qsort w ents1 ents2 :
  readdir_loop w ents1 initial = readdir_loop w ents2 initial ->
  main qsort (with_entries w ents1) = main qsort (with_entries w ents2).
Proof.
  intros H. unfold main. cbn [opendir_posts with_entries].
  rewrite (readdir_loop_with_entries w ents1 ents2 ents1).
  rewrite (readdir_loop_world (with_entries w ents2) w ents1) by done.
  rewrite (readdir_loop_world (with_entries w ents2) w ents2) by done.
  by rewrite H.
Qed.

Lemma readdir_loop_visible w ents st :
  readdir_loop w ents st = readdir_loop w (visible ents) st.
Proof.
  revert st. induction ents as [|e ents IH]; intros st; [done|].
  destruct (is_hidden (d_name e)) eqn:Hh.
  - rewrite visible_cons_hidden by done. simpl. by rewrite visit_hidden.
  - rewrite visible_cons_visible by done. simpl.
    destruct (visit w e st); [apply IH | done].
Qed.

(** X4.  Entries whose name begins with a dot play no part.  Take out
    of a directory every entry whose name has a dot as its first byte:
    the run over what is left is the run over the directory, in status,
    streams and state, whether it succeeds or fails and whatever
    [fopen] would give for the entries taken out. *)
Theorem hidden_entries_ignored qsort w ents :
  main qsort (with_entries w ents)
  = main qsort (with_entries w
      (filter (fun e => head (d_name e) ≠ Some "."%char) ents)).
Proof.
  change (filter _ ents) with (listed ents). rewrite <- visible_listed.
  apply main_with_entries, readdir_loop_visible.
Qed.

(** X5.  The run stops at the first fatal error: when the run over a
    directory fails, the run over the same directory with further
    entries after the last one is the same, in status, streams and
    state. *)
Theorem failure_ignores_later_entries qsort w ents more :
  exit_status (main qsort (with_entries w ents)) ≠ 0 ->
  main qsort (with_entries w (ents ++ more)) = main qsort (with_entries w ents).
Proof.
  intros Hs. apply main_with_entries. rewrite readdir_loop_app.
  destruct (readdir_loop w ents initial) as [st|status st] eqn:E; [|done].
  exfalso. apply Hs. unfold main. cbn [opendir_posts with_entries].
  by rewrite (readdir_loop_world (with_entries w ents) w ents), E.
Qed.

Lemma failure_ignores_later_entries_witness :
  main insertion_qsort
    (with_entries (no_garbage []) ([christmas; no_colon] ++ [spring; locked]))
  = main insertion_qsort (with_entries (no_garbage []) [christmas; no_colon]).
Proof.
  apply (failure_ignores_later_entries insertion_qsort (no_garbage [])
           [christmas; no_colon] [spring; locked]).
  by vm_compute.
Defined.

Lemma getlines_nonempty f : f ≠ [] -> getlines f ≠ [].
Proof.
  destruct f as [|c f]; [done|]. intros _. simpl.
  destruct (Ascii.eqb c LF); [done|]. by destruct (getlines f).
Qed.

(** The lines of a file after a complete line are the lines of the rest. *)
Lemma getlines_app a b :
  a = [] \/ last a = Some LF ->
  getlines (a ++ b) = getlines a ++ getlines b.
Proof.
  induction a as [|c a IH]; [done|]. intros [?|Hlast]; [done|].
  assert (a = [] \/ last a = Some LF) as Ha.
  { destruct a as [|c' a']; [by left|]. right. by rewrite last_cons_cons in Hlast. }
  simpl. rewrite IH by done.
  destruct (Ascii.eqb_spec c LF) as [->|Hc]; [done|].
  destruct a as [|c' a'].
  - simpl in Hlast. congruence.
  - pose proof (getlines_nonempty (c' :: a') ltac:(done)).
    by destruct (getlines (c' :: a')).
Qed.

Lemma header_of_app_separator l1 sep l2 :
  strcmp sep metadata_separator = 0 ->
  header_of (l1 ++ sep :: l2) = header_of l1.
Proof.
  intros Hsep. induction l1 as [|l l1 IH]; simpl.
  - by rewrite Hsep.
  - destruct (strcmp l metadata_separator =? 0); [done|]. by rewrite IH.
Qed.

(** The inner loop reads the header only. *)
Lemma read_header_header_of w name lines st :
  read_header w name lines st = read_header w name (header_of lines) st.
Proof.
  revert st. induction lines as [|l lines IH]; intros st; simpl; [done|].
  destruct (strcmp l metadata_separator =? 0) eqn:E; simpl; [done|].
  rewrite E. destruct (header_line w name l st); [apply IH | done].
Qed.

Lemma visit_same_header w name contents1 contents2 st :
  header_lines contents1 = header_lines contents2 ->
  visit w (file name contents1) st = visit w (file name contents2) st.
Proof.
  intros H. unfold visit, file. cbn [d_name d_fopen].
  destruct (is_hidden name); [done|].
  rewrite (read_header_header_of w name (tail (getlines contents1))).
  rewrite (read_header_header_of w name (tail (getlines contents2))).
  unfold header_lines in H. by rewrite H.
Qed.

Lemma main_same_visit qsort w before e1 e2 after :
  (forall st, visit w e1 st = visit w e2 st) ->
  main qsort (with_entries w (before ++ e1 :: after))
  = main qsort (with_entries w (before ++ e2 :: after)).
Proof.
  intros H. apply main_with_entries. rewrite !readdir_loop_app.
  destruct (readdir_loop w before initial); [|done]. simpl. by rewrite H.
Qed.

Lemma header_lines_title title rest :
  LF ∉ title -> header_lines (title ++ LF :: rest) = header_of (getlines rest).
Proof. intros H. unfold header_lines. by rewrite getlines_line. Qed.

(** X6.  Nothing after the separator line is read: two files that differ
    only in the body after the separator give the same run, whatever the
    body holds. *)
Theorem body_never_read qsort w before after name title hdr body1 body2 :
  absent LF title = true ->
  hdr = [] \/ last hdr = Some LF ->
  main qsort (with_entries w
    (before ++ file name (title ++ LF :: hdr ++ metadata_separator ++ body1)
     :: after))
  = main qsort (with_entries w
      (before ++ file name (title ++ LF :: hdr ++ metadata_separator ++ body2)
       :: after)).
Proof.
  intros Ht%absent_spec Hh. apply main_same_visit. intros st.
  apply visit_same_header.
  assert (forall body,
            header_lines (title ++ LF :: hdr ++ metadata_separator ++ body)
            = header_of (getlines hdr)) as E.
  { intros body. rewrite header_lines_title by done.
    rewrite getlines_app by done.
    unfold metadata_separator. rewrite <- app_assoc. simpl.
    by apply header_of_app_separator. }
  by rewrite !E.
Qed.

Lemma body_never_read_witness :
  main insertion_qsort (with_entries (no_garbage [])
    ([christmas]
     ++ file (lit "a.md")
          (lit "# A" ++ LF :: (lit "date: 2024-01-15" ++ [LF])
           ++ metadata_separator ++ lit "no colon here")
     :: [spring]))
  = main insertion_qsort (with_entries (no_garbage [])
      ([christmas]
       ++ file (lit "a.md")
            (lit "# A" ++ LF :: (lit "date: 2024-01-15" ++ [LF])
             ++ metadata_separator ++ lit "date: 1" ++ [LF])
       :: [spring])).
Proof.
  apply (body_never_read insertion_qsort (no_garbage []) [christmas] [spring]
           (lit "a.md") (lit "# A") (lit "date: 2024-01-15" ++ [LF])).
  - run.
  - right. run.
Defined.

(** The loop body reads the bytes past the terminator only for a line
    that ends at its colon. *)
Lemma header_line_agree w1 w2 name line st :
  past_terminator w1 name = past_terminator w2 name \/ ends_at_colon line = false ->
  header_line w1 name line st = header_line w2 name line st.
Proof.
  intros [Hp|He]; [by apply header_line_world|].
  unfold header_line, at_colon_2. unfold ends_at_colon in He.
  destruct (strchr line ":") as [colon|]; [|done].
  apply Nat.ltb_ge in He.
  by destruct (Nat.leb_spec (colon + 2) (length line)); [|lia].
Qed.

Lemma read_header_agree w1 w2 name lines st :
  past_terminator w1 name = past_terminator w2 name
  \/ Forall (fun l => ends_at_colon l = false) (header_of lines) ->
  read_header w1 name lines st = read_header w2 name lines st.
Proof.
  revert st. induction lines as [|l lines IH]; intros st H; simpl; [done|].
  simpl in H. destruct (strcmp l metadata_separator =? 0); [done|].
  rewrite (header_line_agree w1 w2).
  - destruct (header_line w2 name l st); [|done].
    apply IH. destruct H as [?|[_ ?]%Forall_cons]; auto.
  - destruct H as [?|[? _]%Forall_cons]; auto.
Qed.

Lemma readdir_loop_agree w1 w2 ents st :
  (forall n, indeterminate_date w1 n = indeterminate_date w2 n) ->
  Forall (fun e => past_terminator w1 (d_name e) = past_terminator w2 (d_name e))
         ents ->
  readdir_loop w1 ents st = readdir_loop w2 ents st.
Proof.
  intros Hi H. revert st. induction H as [|e ents He _ IH]; intros st; simpl; [done|].
  assert (visit w1 e st = visit w2 e st) as ->.
  { unfold visit. rewrite Hi. destruct (is_hidden (d_name e)); [done|].
    destruct (d_fopen e); [done|].
    by rewrite (read_header_agree w1 w2) by auto. }
  destruct (visit w2 e st); [apply IH | done].
Qed.

(** X7.  The first line of a file is skipped whatever it holds.  Take
    two runs over directories that differ only in the first line of one
    file, a file none of whose header lines ends at its first colon: the
    runs are the same, be the first line without a colon, a date line of
    the wrong length or the separator itself.  (For a header line that
    ends at its colon the value is read past the terminator of the line,
    where bytes of the first line may remain: the two runs have each
    their own world, and the bytes past the terminator in this file may
    differ between them.) *)
Theorem first_line_skipped qsort w1 w2 before after name title1 title2 rest :
  opendir_posts w1 = inr (before ++ file name (title1 ++ LF :: rest) :: after) ->
  opendir_posts w2 = inr (before ++ file name (title2 ++ LF :: rest) :: after) ->
  (forall n, indeterminate_date w1 n = indeterminate_date w2 n) ->
  Forall (fun e => past_terminator w1 (d_name e) = past_terminator w2 (d_name e))
         (before ++ after) ->
  absent LF title1 = true ->
  absent LF title2 = true ->
  Forall (fun l => ends_at_colon l = false) (header_of (getlines rest)) ->
  main qsort w1 = main qsort w2.
Proof.
  intros Hd1 Hd2 Hi [Hb Ha]%Forall_app H1%absent_spec H2%absent_spec Hrest.
  unfold main. rewrite Hd1, Hd2, !readdir_loop_app.
  rewrite (readdir_loop_agree w1 w2 before) by done.
  destruct (readdir_loop w2 before initial) as [st|]; [|done]. cbn [readdir_loop].
  assert (visit w1 (file name (title1 ++ LF :: rest)) st
          = visit w2 (file name (title2 ++ LF :: rest)) st) as ->.
  { rewrite (visit_same_header w1 name _ (title2 ++ LF :: rest))
      by (by rewrite !header_lines_title).
    unfold visit, file. cbn [d_name d_fopen]. rewrite Hi.
    destruct (is_hidden name); [done|].
    rewrite (read_header_agree w1 w2); [done|]. right.
    fold (header_lines (title2 ++ LF :: rest)). by rewrite header_lines_title. }
  destruct (visit w2 _ st) as [st'|]; [|done].
  by rewrite (readdir_loop_agree w1 w2 after).
Qed.

Lemma first_line_skipped_witness :
  main insertion_qsort
    {| opendir_posts :=
         inr ([christmas]
              ++ file (lit "a.md") (lit "---" ++ LF :: lit "title: A" ++ [LF])
              :: [spring]);
       indeterminate_date := fun _ => 0;
       past_terminator := fun _ => lit "--" ++ [LF] |}
  = main insertion_qsort
      {| opendir_posts :=
           inr ([christmas]
                ++ file (lit "a.md") (lit "date: 1" ++ LF :: lit "title: A" ++ [LF])
                :: [spring]);
         indeterminate_date := fun _ => 0;
         past_terminator :=
           fun name => if decide (name = lit "a.md") then lit "ate: 1" ++ [LF]
                       else lit "--" ++ [LF] |}.
Proof.
  apply (first_line_skipped insertion_qsort _ _ [christmas] [spring]
           (lit "a.md") (lit "---") (lit "date: 1") (lit "title: A" ++ [LF])).
  - reflexivity.
  - reflexivity.
  - reflexivity.
  - cbn [app past_terminator]. run_lines.
  - run.
  - run.
  - change (header_of (getlines (lit "title: A" ++ [LF])))
      with [lit "title: A" ++ [LF]].
    run_lines.
Defined.

(** ** A header without a date line *)

Lemma last_date_none lines before :
  Forall (fun l => is_date_line l = false) lines ->
  last_date lines before = before.
Proof.
  intros H. revert before. induction H as [|l lines Hl _ IH]; intros before; [done|].
  by rewrite last_date_cons, Hl, IH.
Qed.

(** X8.  A header without a date line is no error.  When the loop
    reaches a visible file whose header lines are all accepted and none
    of which takes the date branch, and the array has room, the file is
    gone through and the record stored for it carries as sort key the
    value that the uninitialised [post.date] happened to hold. *)
Theorem undated_record_key_indeterminate w before ent contents st :
  readdir_loop w before initial = Running st ->
  (nposts st < MAX_POSTS)%nat ->
  is_hidden (d_name ent) = false ->
  d_fopen ent = fopen_ok contents ->
  Forall (fun l => line_accepted l = true) (header_lines contents) ->
  Forall (fun l => is_date_line l = false) (header_lines contents) ->
  exists st',
    visit w ent st = Running st'
    /\ posts st' !! nposts st
       = Some {| date := indeterminate_date w (nposts st);
                 json := Buffer (length (buf st)) |}.
Proof.
  intros Hb Hn Hh Ho Hacc Hnd.
  destruct (readdir_loop_posts _ _ _ _ Hb) as [Hlen _]; [done | simpl; lia |].
  destruct (visit_stored w ent st contents Hh Ho Hacc Hn) as [st' Hv].
  exists st'. split; [done|].
  apply visit_Running in Hv as [[Hh' _]|(c & _ & Ho' & _ & _ & _ & -> & _)];
    [congruence|].
  rewrite Ho in Ho'. injection Ho' as <-.
  rewrite list_lookup_insert_eq by lia.
  unfold record_date. by rewrite last_date_none.
Qed.

Lemma undated_record_key_indeterminate_witness :
  exists st',
    visit (no_garbage [christmas; undated]) undated
      (state_of (readdir_loop (no_garbage [christmas; undated]) [christmas] initial))
    = Running st'
    /\ posts st' !! nposts (state_of (readdir_loop (no_garbage [christmas; undated])
                                        [christmas] initial))
       = Some {| date := indeterminate_date (no_garbage [christmas; undated])
                           (nposts (state_of (readdir_loop
                                                (no_garbage [christmas; undated])
                                                [christmas] initial)));
                 json := Buffer (length (buf (state_of (readdir_loop
                                                (no_garbage [christmas; undated])
                                                [christmas] initial)))) |}.
Proof.
  apply (undated_record_key_indeterminate (no_garbage [christmas; undated])
           [christmas] undated (contents_of undated)).
  - run.
  - vm_compute. lia.
  - run.
  - run.
  - change (header_lines (contents_of undated)) with [lit "title: No date" ++ [LF]].
    run_lines.
  - change (header_lines (contents_of undated)) with [lit "title: No date" ++ [LF]].
    run_lines.
Defined.

(** ** The size of the buffer *)

(** X9.  The program never compares the bytes it renders with the size
    of the buffer: a successful run has stored outside an array exactly
    when the records of the visible entries, each with its terminator,
    take more than [MAX_POSTS * METADATA_MAX_SIZE] bytes. *)
Theorem buffer_overrun_iff qsort w ents :
  opendir_posts w = inr ents ->
  exit_status (main qsort w) = 0 ->
  (memory_faults (main qsort w) = []
   <-> (length (rendered_bytes w ents) <= MAX_POSTS * METADATA_MAX_SIZE)%nat).
Proof.
  intros Hd Hs. destruct (main_success _ _ Hs) as (ents' & st & Hd' & Hl).
  rewrite Hd in Hd'. injection Hd' as <-.
  assert (memory_faults (main qsort w) = faults st) as ->.
  { unfold main, memory_faults. rewrite Hd, Hl. cbn [snd].
    destruct (print_posts_appends
                (print_out (lit "[" ++ [LF])
                   (set_posts (qsort cmp_posts (take (nposts st) (posts st))
                               ++ drop (nposts st) (posts st)) st)))
      as (_ & _ & _ & Hf & _).
    state_simpl. by rewrite Hf. }
  pose proof (readdir_loop_fits w ents initial st Hl) as Hfits.
  unfold fits in Hfits. rewrite Hfits.
  - by rewrite (readdir_loop_buf _ _ _ _ Hl).
  - simpl. split; [intros _; lia | done].
Qed.

Lemma buffer_overrun_iff_witness :
  memory_faults (main insertion_qsort older_first) = []
  <-> (length (rendered_bytes older_first [christmas; spring])
       <= MAX_POSTS * METADATA_MAX_SIZE)%nat.
Proof.
  apply (buffer_overrun_iff insertion_qsort older_first [christmas; spring]); run.
Defined.

(** A run of the other kind: one header value of 26000 bytes.  The
    model records three stores outside the buffer: the terminator of
    [sprintf], the closing brace and the final terminator.  What the C
    program does from the first of them on is undefined. *)
Lemma oversized_run_overruns :
  length (memory_faults (main insertion_qsort oversized)) = 3%nat.
Proof. run. Qed.

(** ** The key and the value of a header line *)

(** X10.  What the loop body writes for a header line without NUL bytes
    whose first colon is at [colon]: the key is the bytes before the
    colon; the value is what lies between the two bytes after the colon
    and the last byte of the line, whatever those three bytes are (the
    byte after the colon need not be a space, and a last line without
    newline loses its last byte).  When the colon is the last byte of
    the line, the value is read past the terminator of the line. *)
Theorem value_between_colon_and_last_byte w name line colon :
  strchr line ":" = Some colon ->
  absent NUL line = true ->
  ((colon + 2 <= length line)%nat ->
   header_text w name line
   = lit ", " ++ quoted (take colon line) ++ lit ": "
     ++ quoted (take (length line - colon - 3) (drop (colon + 2) line)))
  /\ ((colon + 1 = length line)%nat ->
      header_text w name line
      = lit ", " ++ quoted (take colon line) ++ lit ": "
        ++ quoted (c_str (past_terminator w name))).
Proof.
  intros Hc H0%absent_spec. unfold header_text, format_field. rewrite Hc.
  assert (printf_prec_s (Z.of_nat colon) line = take colon line) as ->.
  { unfold printf_prec_s. destruct (Z.ltb_spec (Z.of_nat colon) 0); [lia|].
    by rewrite Nat2Z.id, c_str_id. }
  split; intros Hlen; do 3 f_equal; unfold at_colon_2, printf_prec_s.
  - destruct (Nat.leb_spec (colon + 2) (length line)); [|lia].
    assert (NUL ∉ drop (colon + 2) line) as Hd.
    { intros Hin. apply H0. rewrite <- (take_drop (colon + 2) line), elem_of_app.
      by right. }
    rewrite c_str_id by done.
    destruct (Z.ltb_spec (Z.of_nat (length line) - Z.of_nat colon - 3) 0) as [Hneg|Hpos].
    + assert (length line = colon + 2)%nat as E by lia.
      rewrite drop_ge by lia. by rewrite take_nil.
    + by replace (Z.to_nat (Z.of_nat (length line) - Z.of_nat colon - 3))
        with (length line - colon - 3)%nat by lia.
  - destruct (Nat.leb_spec (colon + 2) (length line)); [lia|].
    destruct (Z.ltb_spec (Z.of_nat (length line) - Z.of_nat colon - 3) 0); [done|lia].
Qed.

Lemma value_between_colon_and_last_byte_witness :
  header_text (no_garbage []) (lit "a.md") (lit "title:Hello")
  = lit ", " ++ quoted (lit "title") ++ lit ": " ++ quoted (lit "ell").
Proof.
  refine (proj1 (value_between_colon_and_last_byte (no_garbage []) (lit "a.md")
                   (lit "title:Hello") 5 _ _) _).
  - run.
  - run.
  - vm_compute. lia.
Defined.

(** ** The sort key and the bytes of the date *)

Lemma to_int64_inj a b :
  0 <= a < 2 ^ 64 -> 0 <= b < 2 ^ 64 -> to_int64 a = to_int64 b -> a = b.
Proof.
  assert (forall z, 0 <= z < 2 ^ 64 ->
            to_int64 z = if z <? 2 ^ 63 then z else z - 2 ^ 64) as E.
  { intros z Hz. unfold to_int64. destruct (Z.ltb_spec z (2 ^ 63)).
    - rewrite Z.mod_small; lia.
    - replace (z + 2 ^ 63) with (z - 2 ^ 63 + 1 * 2 ^ 64) by lia.
      rewrite Z_mod_plus_full, Z.mod_small; lia. }
  intros Ha Hb. rewrite !E by done.
  destruct (Z.ltb_spec a (2 ^ 63)), (Z.ltb_spec b (2 ^ 63)); lia.
Qed.

Lemma big_endian_snoc l c : big_endian (l ++ [c]) = big_endian l * 256 + uchar c.
Proof. unfold big_endian. by rewrite foldl_snoc. Qed.

Lemma big_endian_nonneg l : 0 <= big_endian l.
Proof.
  induction l as [|c l IH] using rev_ind; [done|].
  rewrite big_endian_snoc. pose proof (uchar_range c). lia.
Qed.

Lemma big_endian_bound l : big_endian l < 256 ^ Z.of_nat (length l).
Proof.
  induction l as [|c l IH] using rev_ind; [done|].
  rewrite big_endian_snoc, length_app, Nat2Z.inj_add, Z.pow_add_r by lia.
  pose proof (uchar_range c). simpl. lia.
Qed.

(** Byte sequences of one length with the same big-endian value are the
    same. *)
Lemma big_endian_inj l1 l2 :
  length l1 = length l2 -> big_endian l1 = big_endian l2 -> l1 = l2.
Proof.
  revert l2. induction l1 as [|c1 l1 IH] using rev_ind; intros l2.
  - destruct l2; [done|discriminate].
  - destruct l2 as [|c2 l2 _] using rev_ind.
    + rewrite length_app. simpl. lia.
    + rewrite !length_app, !big_endian_snoc. simpl. intros Hlen E.
      pose proof (uchar_range c1). pose proof (uchar_range c2).
      assert (big_endian l1 = big_endian l2 /\ uchar c1 = uchar c2)
        as [E1 E2%uchar_inj] by lia.
      rewrite (IH l2) by (done || lia). by subst.
Qed.

Lemma big_endian_cons c l :
  big_endian (c :: l) = uchar c * 256 ^ Z.of_nat (length l) + big_endian l.
Proof.
  induction l as [|c' l IH] using rev_ind.
  - unfold big_endian. simpl. lia.
  - rewrite app_comm_cons, !big_endian_snoc, IH, length_app, Nat2Z.inj_add,
      Z.pow_add_r by lia.
    simpl. lia.
Qed.

(** X11.  The sort key determines the eight year, month and day bytes of
    the date and nothing else: two dates have the same key exactly when
    they agree on these bytes, whatever stands in the place of the two
    hyphens.  The key is negative exactly when the first byte of the
    year is 128 or more. *)
Theorem date_of_eq_iff_packed :
  (forall s1 s2, date_of s1 = date_of s2 <-> packed s1 = packed s2)
  /\ (forall s, date_of s < 0 <-> 128 <= uchar (hd NUL (packed s))).
Proof.
  assert (forall s, length (packed s) = 8%nat) as Hlen.
  { by intros [[[[? ?] ?] ?] ? [? ?] ? [? ?]]. }
  assert (forall s, 0 <= big_endian (packed s) < 2 ^ 64) as Hrange.
  { intros s. split; [apply big_endian_nonneg|].
    pose proof (big_endian_bound (packed s)) as H. by rewrite Hlen in H. }
  split.
  - intros s1 s2. rewrite !date_of_big_endian. split; [|by intros ->].
    intros E. apply to_int64_inj in E; [|done..].
    apply big_endian_inj; [|done]. by rewrite !Hlen.
  - intros s. rewrite date_of_big_endian.
    pose proof (Hrange s) as Hs. revert Hs. unfold packed.
    destruct s as [[[[a0 a1] a2] a3] ? [a4 a5] ? [a6 a7]]. simpl.
    rewrite big_endian_cons.
    pose proof (big_endian_nonneg [a1; a2; a3; a4; a5; a6; a7]).
    pose proof (big_endian_bound [a1; a2; a3; a4; a5; a6; a7]) as Hb.
    pose proof (uchar_range a0).
    change (256 ^ Z.of_nat (length [a1; a2; a3; a4; a5; a6; a7])) with (2 ^ 56) in *.
    generalize dependent (big_endian [a1; a2; a3; a4; a5; a6; a7]). intros r ? ? Hr.
    unfold to_int64. destruct (Z_lt_le_dec (uchar a0) 128).
    + rewrite Z.mod_small by lia. lia.
    + replace (uchar a0 * 2 ^ 56 + r + 2 ^ 63)
        with (uchar a0 * 2 ^ 56 + r - 2 ^ 63 + 1 * 2 ^ 64) by lia.
      rewrite Z_mod_plus_full, Z.mod_small by lia. lia.
Qed.

(** ** The lines that take the date branch *)

(** X12.  For a header line with its first colon at [colon], the date
    branch of the loop body is taken exactly when the key, the bytes
    before the colon, is a prefix of the literal [date]: the literal,
    its proper prefixes and the empty key.  On a line with any other
    key the loop body goes on, whatever the length of the line, and
    leaves the record under construction as it is. *)
Theorem date_branch_iff_key_prefix w name line colon st :
  strchr line ":" = Some colon ->
  (is_date_line line = true <-> take colon line `prefix_of` lit "date")
  /\ (~ take colon line `prefix_of` lit "date" ->
      exists st', header_line w name line st = Running st'
                  /\ post st' = post st
                  /\ buf st' = buf st ++ header_text w name line).
Proof.
  intros Hc. pose proof (is_date_line_key line colon Hc) as Hkey.
  split; [done|]. intros Hn.
  assert (is_date_line line = false) as Hd.
  { destruct (is_date_line line); [|done]. exfalso. by apply Hn, Hkey. }
  rewrite header_line_accepted.
  - eexists. split; [done|]. unfold header_step. by rewrite Hd.
  - unfold line_accepted. by rewrite Hc, Hd.
Qed.

Lemma date_branch_iff_key_prefix_witness :
  (is_date_line (lit "dates: 2024" ++ [LF]) = true
   <-> take 5 (lit "dates: 2024" ++ [LF]) `prefix_of` lit "date")
  /\ (~ take 5 (lit "dates: 2024" ++ [LF]) `prefix_of` lit "date" ->
      exists st', header_line (no_garbage []) (lit "a.md")
                    (lit "dates: 2024" ++ [LF]) initial = Running st'
                  /\ post st' = post initial
                  /\ buf st' = buf initial
                     ++ header_text (no_garbage []) (lit "a.md")
                          (lit "dates: 2024" ++ [LF])).
Proof.
  apply (date_branch_iff_key_prefix (no_garbage []) (lit "a.md")
           (lit "dates: 2024" ++ [LF]) 5 initial).
  run.
Defined.

(** ** The separator line *)

Lemma elem_of_c_str l k c :
  l !! k = Some c -> c ≠ NUL -> NUL ∉ take k l -> c ∈ c_str l.
Proof.
  revert k. induction l as [|a l IH]; intros [|k]; simpl; try done.
  - intros [= ->] Hc _. rewrite eqb_NUL_false by done. left.
  - intros Hk Hc. rewrite not_elem_of_cons. intros [Ha H0].
    rewrite eqb_NUL_false by congruence. right. by apply (IH k).
Qed.

(** A line with a colon is not the separator. *)
Lemma line_accepted_not_separator l :
  line_accepted l = true -> strcmp l metadata_separator ≠ 0.
Proof.
  unfold line_accepted. destruct (strchr l ":") as [k|] eqn:Hc; [|done].
  intros _. rewrite strcmp_0.
  change (c_str metadata_separator) with metadata_separator. intros E.
  apply strchr_Some in Hc as (Hk & _ & H0); [|done].
  assert (":"%char ∈ c_str l) as Hin by (by apply (elem_of_c_str l k)).
  rewrite E in Hin. revert Hin. by apply absent_spec.
Qed.

(** X13.  A line of three hyphens without a newline does not end the
    header.  When a file ends with three hyphens and no newline, after a
    first line and header lines that are all accepted, that last line is
    taken for a header line: the run ends with status 1 and the
    missing-colon diagnostic for it, and nothing on the standard
    output. *)
Theorem unterminated_separator_fatal qsort w before after name title hdr :
  opendir_posts w
  = inr (before ++ file name (title ++ LF :: hdr ++ lit "---") :: after) ->
  Forall (fun e => entry_ok e = true) (visible before) ->
  (length (visible before) <= MAX_POSTS)%nat ->
  is_hidden name = false ->
  absent LF title = true ->
  hdr = [] \/ last hdr = Some LF ->
  Forall (fun l => line_accepted l = true) (getlines hdr) ->
  exit_status (main qsort w) = 1
  /\ standard_error (main qsort w)
     = c_str name ++ lit ": missing colon in line:" ++ [LF; TAB] ++ lit "---"
  /\ standard_output (main qsort w) = [].
Proof.
  intros Hd HF Hlen Hh Ht%absent_spec Hhdr Hacc.
  destruct (proj2 (readdir_loop_Running_iff w before initial
                     ltac:(simpl; lia)) (conj HF Hlen)) as [st Hb].
  assert (header_lines (title ++ LF :: hdr ++ lit "---")
          = getlines hdr ++ lit "---" :: []) as Hl.
  { rewrite header_lines_title, getlines_app by done.
    rewrite header_of_app_not_sep; [done|].
    eapply Forall_impl; [exact Hacc|]. apply line_accepted_not_separator. }
  change (c_str name ++ lit ": missing colon in line:" ++ [LF; TAB] ++ lit "---")
    with (line_diagnostic
            (d_name (file name (title ++ LF :: hdr ++ lit "---"))) (lit "---")).
  by apply (main_rejected qsort w before
              (file name (title ++ LF :: hdr ++ lit "---")) after
              (title ++ LF :: hdr ++ lit "---")
              (getlines hdr) (lit "---") [] st).
Qed.

Lemma unterminated_separator_fatal_witness :
  exit_status (main insertion_qsort
                 (no_garbage ([christmas]
                              ++ file (lit "a.md")
                                   (lit "# A" ++ LF :: (lit "title: A" ++ [LF])
                                    ++ lit "---") :: [spring]))) = 1
  /\ standard_error (main insertion_qsort
                       (no_garbage ([christmas]
                                    ++ file (lit "a.md")
                                         (lit "# A" ++ LF :: (lit "title: A" ++ [LF])
                                          ++ lit "---") :: [spring])))
     = c_str (lit "a.md") ++ lit ": missing colon in line:" ++ [LF; TAB] ++ lit "---"
  /\ standard_output (main insertion_qsort
                        (no_garbage ([christmas]
                                     ++ file (lit "a.md")
                                          (lit "# A" ++ LF :: (lit "title: A" ++ [LF])
                                           ++ lit "---") :: [spring]))) = [].
Proof.
  apply (unterminated_separator_fatal insertion_qsort _ [christmas] [spring]
           (lit "a.md") (lit "# A") (lit "title: A" ++ [LF])).
  - reflexivity.
  - change (visible [christmas]) with [christmas]. run_lines.
  - change (visible [christmas]) with [christmas]. unfold MAX_POSTS. simpl. lia.
  - run.
  - run.
  - right. run.
  - change (getlines (lit "title: A" ++ [LF])) with [lit "title: A" ++ [LF]].
    run_lines.
Defined.
